(** * Apollo gateway: unified authentication middleware and resilient
      service checker

    A shallow embedding of
    - [src/middleware/authentication-unified.ts] (module [Auth]),
    - [dist/middleware/authentication.js], the earlier JWT-only
      middleware (module [Legacy]),
    - [src/gateway/resilient-gateway.ts] and [dist/config/subgraphs.js]
      (module [Gateway]),
    - the start-up block of the gateway server (module [Server]),
    followed by the properties established about them.

    Conventions.  JavaScript strings are byte strings (their UTF-8
    encoding); the separators the code looks for (space, pipe, comma)
    are ASCII, so splitting and searching agree with the UTF-16 view,
    and the white space [trim] strips is matched by its UTF-8 bytes.
    [Date.now()] is an integer number of milliseconds.  Mutable module
    state (the token cache, the two service sets, the readiness flags),
    the request being processed, the response object and the console
    are fields of an explicit state that every operation threads. *)

From Stdlib Require Import ZArith List String Ascii Bool Lia.
From stdpp Require Import base option list strings gmap.
Import ListNotations.

Local Open Scope string_scope.
Local Open Scope Z_scope.

(** ** JavaScript string primitives used by the sources *)

Module Js.

(** [s.includes(c)] for a one-character needle. *)
Fixpoint includes_char (c : ascii) (s : string) : bool :=
  match s with
  | EmptyString => false
  | String a r => if Ascii.eqb a c then true else includes_char c r
  end.

(** [s.split(c)] for a one-character separator: always at least one
    part; adjacent separators give empty parts. *)
Fixpoint split (c : ascii) (s : string) : list string :=
  match s with
  | EmptyString => [EmptyString]
  | String a r =>
      if Ascii.eqb a c then EmptyString :: split c r
      else match split c r with
           | p :: ps => String a p :: ps
           | [] => [String a EmptyString]
           end
  end.

(** [s.substring(0, n)]. *)
Fixpoint prefix (n : nat) (s : string) : string :=
  match n, s with
  | S k, String a r => String a (prefix k r)
  | _, _ => EmptyString
  end.

(** A string given by its bytes. *)
Definition bytes (l : list Z) : string :=
  string_of_list_ascii (map (fun b => ascii_of_nat (Z.to_nat b)) l).

(** What [String.prototype.trim] strips: the white space and line
    terminator code points U+0009 to U+000D, U+0020, U+00A0, U+1680,
    U+2000 to U+200A, U+2028, U+2029, U+202F, U+205F, U+3000 and U+FEFF,
    each as its UTF-8 bytes. *)
Definition white_space : list string :=
  map bytes
    [[9]; [10]; [11]; [12]; [13]; [32];
     [194; 160];
     [225; 154; 128];
     [226; 128; 128]; [226; 128; 129]; [226; 128; 130]; [226; 128; 131];
     [226; 128; 132]; [226; 128; 133]; [226; 128; 134]; [226; 128; 135];
     [226; 128; 136]; [226; 128; 137]; [226; 128; 138];
     [226; 128; 168]; [226; 128; 169]; [226; 128; 175];
     [226; 129; 159];
     [227; 128; 128];
     [239; 187; 191]].

(** [s] without its prefix [p], when it starts with [p]. *)
Fixpoint drop (p s : string) : option string :=
  match p, s with
  | EmptyString, _ => Some s
  | String a p', String b s' => if Ascii.eqb a b then drop p' s' else None
  | String _ _, EmptyString => None
  end.

(** [s] without the first of the patterns [ws] it starts with. *)
Fixpoint drop_any (ws : list string) (s : string) : option string :=
  match ws with
  | [] => None
  | p :: ws' =>
      match drop p s with
      | Some r => Some r
      | None => drop_any ws' s
      end
  end.

(** Dropping leading patterns, at most [n] of them. *)
Fixpoint strip (ws : list string) (n : nat) (s : string) : string :=
  match n with
  | O => s
  | S k =>
      match drop_any ws s with
      | Some r => strip ws k r
      | None => s
      end
  end.

Definition rev_string (s : string) : string :=
  string_of_list_ascii (rev (list_ascii_of_string s)).

Definition trim_left (s : string) : string :=
  strip white_space (String.length s) s.

Definition trim_right (s : string) : string :=
  rev_string (strip (map rev_string white_space) (String.length s) (rev_string s)).

(** [s.trim()]. *)
Definition trim (s : string) : string := trim_right (trim_left s).

(** Truthiness of a string: only the empty string is falsy. *)
Definition truthy (s : string) : bool :=
  match s with EmptyString => false | _ => true end.

(** [a.join(sep)]. *)
Fixpoint join (sep : string) (l : list string) : string :=
  match l with
  | [] => EmptyString
  | [x] => x
  | x :: r => x +:+ sep +:+ join sep r
  end.

(** [arr.includes(x)] on an array of strings. *)
Definition includes (l : list string) (x : string) : bool :=
  existsb (String.eqb x) l.

(** Decimal rendering of a number inside a template literal. *)
Fixpoint digits (fuel : nat) (n : N) (acc : string) : string :=
  match fuel with
  | O => acc
  | S f =>
      let d := ascii_of_N (48 + N.modulo n 10) in
      let q := N.div n 10 in
      if N.eqb q 0 then String d acc else digits f q (String d acc)
  end.

Definition show_nat (n : nat) : string :=
  digits (S n) (N.of_nat n) EmptyString.

End Js.

(** ** MD5, as [crypto.createHash('md5').update(s).digest('hex')] *)

Module MD5.

Definition w32 (x : Z) : Z := x mod 4294967296.

Definition rotl (x c : Z) : Z :=
  w32 (Z.lor (Z.shiftl x c) (Z.shiftr x (32 - c))).

Definition lnot32 (x : Z) : Z := Z.lxor x 4294967295.

Definition shifts : list Z :=
  [7; 12; 17; 22; 7; 12; 17; 22; 7; 12; 17; 22; 7; 12; 17; 22;
   5; 9; 14; 20; 5; 9; 14; 20; 5; 9; 14; 20; 5; 9; 14; 20;
   4; 11; 16; 23; 4; 11; 16; 23; 4; 11; 16; 23; 4; 11; 16; 23;
   6; 10; 15; 21; 6; 10; 15; 21; 6; 10; 15; 21; 6; 10; 15; 21].

(** [floor (2^32 * |sin (i + 1)|)] for [i] from 0 to 63. *)
Definition sines : list Z :=
  [3614090360; 3905402710; 606105819; 3250441966;
   4118548399; 1200080426; 2821735955; 4249261313;
   1770035416; 2336552879; 4294925233; 2304563134;
   1804603682; 4254626195; 2792965006; 1236535329;
   4129170786; 3225465664; 643717713; 3921069994;
   3593408605; 38016083; 3634488961; 3889429448;
   568446438; 3275163606; 4107603335; 1163531501;
   2850285829; 4243563512; 1735328473; 2368359562;
   4294588738; 2272392833; 1839030562; 4259657740;
   2763975236; 1272893353; 4139469664; 3200236656;
   681279174; 3936430074; 3572445317; 76029189;
   3654602809; 3873151461; 530742520; 3299628645;
   4096336452; 1126891415; 2878612391; 4237533241;
   1700485571; 2399980690; 4293915773; 2240044497;
   1873313359; 4264355552; 2734768916; 1309151649;
   4149444226; 3174756917; 718787259; 3951481745].

Record regs := Regs { ra : Z; rb : Z; rc : Z; rd : Z }.

Definition init : regs :=
  Regs 1732584193 4023233417 2562383102 271733878.

Definition bytes_of (s : string) : list Z :=
  map (fun a => Z.of_nat (nat_of_ascii a)) (list_ascii_of_string s).

(** Little-endian bytes of [x], [n] of them. *)
Fixpoint le_bytes (n : nat) (x : Z) : list Z :=
  match n with
  | O => []
  | S k => (x mod 256) :: le_bytes k (x / 256)
  end.

Definition pad (msg : list Z) : list Z :=
  let len := Z.of_nat (List.length msg) in
  msg ++ [128] ++ repeat 0 (Z.to_nat ((55 - len) mod 64))
      ++ le_bytes 8 ((8 * len) mod 18446744073709551616).

Fixpoint word_of_le (bs : list Z) : Z :=
  match bs with
  | [] => 0
  | b :: r => b + 256 * word_of_le r
  end.

Fixpoint words (n : nat) (bs : list Z) : list Z :=
  match n with
  | O => []
  | S k => word_of_le (firstn 4 bs) :: words k (skipn 4 bs)
  end.

Fixpoint blocks (n : nat) (bs : list Z) : list (list Z) :=
  match n with
  | O => []
  | S k => words 16 (firstn 64 bs) :: blocks k (skipn 64 bs)
  end.

Definition round (m : list Z) (r : regs) (i : nat) : regs :=
  let '(Regs a b c d) := r in
  let zi := Z.of_nat i in
  let '(f, g) :=
    if (i <? 16)%nat then
      (Z.lor (Z.land b c) (Z.land (lnot32 b) d), zi)
    else if (i <? 32)%nat then
      (Z.lor (Z.land d b) (Z.land (lnot32 d) c), (5 * zi + 1) mod 16)
    else if (i <? 48)%nat then
      (Z.lxor b (Z.lxor c d), (3 * zi + 5) mod 16)
    else
      (Z.lxor c (Z.lor b (lnot32 d)), (7 * zi) mod 16) in
  let f' := w32 (f + a + nth i sines 0 + nth (Z.to_nat g) m 0) in
  Regs d (w32 (b + rotl f' (nth i shifts 0))) b c.

Definition compress (r : regs) (m : list Z) : regs :=
  let '(Regs a b c d) := fold_left (round m) (seq 0 64) r in
  Regs (w32 (ra r + a)) (w32 (rb r + b)) (w32 (rc r + c)) (w32 (rd r + d)).

Definition hex_digit (n : Z) : ascii :=
  ascii_of_nat (Z.to_nat (if n <? 10 then 48 + n else 87 + n)).

Fixpoint hex (bs : list Z) : string :=
  match bs with
  | [] => EmptyString
  | b :: r => String (hex_digit (b / 16)) (String (hex_digit (b mod 16)) (hex r))
  end.

Definition hexdigest (s : string) : string :=
  let p := pad (bytes_of s) in
  let '(Regs a b c d) :=
    fold_left compress (blocks (List.length p / 64) p) init in
  hex (le_bytes 4 a ++ le_bytes 4 b ++ le_bytes 4 c ++ le_bytes 4 d).

End MD5.

(** ** The unified authentication middleware *)

Module Auth.

(** *** Data *)

(** [id: string | number]. *)
Inductive JsId := IdString (s : string) | IdNumber (n : Z).

Definition id_truthy (i : JsId) : bool :=
  match i with
  | IdString s => Js.truthy s
  | IdNumber n => negb (n =? 0)
  end.

(** A string of parsed JSON that the code prints: absent, [null], or a
    string. *)
Inductive JsonString := JAbsent | JNull | JStr (s : string).

(** [interface AuthUser].  The values come from parsed JSON and from
    decoded token claims, so at run time every field can be absent or
    [null].  [None] stands for both: the code does not tell them apart,
    except in [email], which it prints. *)
Record AuthUser := {
  id : option JsId;
  email : JsonString;
  nombre : option string;
  role : option string;
  roles : option (list string);
  permissions : option (list string)
}.

Inductive TokenType := sanctum | jwt.

Definition show_TokenType (t : TokenType) : string :=
  match t with sanctum => "sanctum" | jwt => "jwt" end.

(** The [auth] member of [AuthenticatedRequest]. *)
Record AuthContext := {
  authenticated : bool;
  user : option AuthUser;
  token : option string;
  tokenType : option TokenType
}.

(** [{ authenticated: false }]. *)
Definition anonymous : AuthContext :=
  {| authenticated := false; user := None; token := None; tokenType := None |}.

Record Request := {
  authorization : option string;   (* req.headers.authorization *)
  auth : option AuthContext
}.

(** What [res.status(c).json({ error, message })] leaves behind. *)
Record Response := {
  status : option Z;
  body : option (string * string)
}.

Record CacheEntry := { userData : AuthUser; expiresAt : Z }.

Definition CACHE_TTL_SECONDS : Z := 300.

Inductive LogLevel := LError | LWarn | LInfo | LDebug.
Record LogEntry := { level : LogLevel; message : string }.

(** Thrown values. *)
Inductive ErrorClass :=
| PlainError                          (* new Error(...) *)
| TypeError
| AxiosError (code : option string)
| TokenExpiredError                   (* extends JsonWebTokenError *)
| JsonWebTokenError
| OtherError (name : string).

Record JsError := { cls : ErrorClass; msg : string }.

Definition error_name (c : ErrorClass) : string :=
  match c with
  | PlainError => "Error"
  | TypeError => "TypeError"
  | AxiosError _ => "AxiosError"
  | TokenExpiredError => "TokenExpiredError"
  | JsonWebTokenError => "JsonWebTokenError"
  | OtherError n => n
  end.

(** [`${error}`]. *)
Definition show_error (e : JsError) : string :=
  error_name (cls e) +:+ ": " +:+ msg e.

(** [(error as AxiosError).code]. *)
Definition error_code (e : JsError) : option string :=
  match cls e with AxiosError c => c | _ => None end.

Definition mkError (m : string) : JsError := {| cls := PlainError; msg := m |}.

(** The body of the authority's answer:
    [{ errors?: [{ message }], data?: { validateToken? } }]. *)
Record GraphQLData := { validateToken : option AuthUser }.
Record GraphQLBody := {
  errors : option (list string);
  data : option GraphQLData
}.

Inductive AxiosOutcome :=
| Rejected (e : JsError)
| Resolved (response_data : option GraphQLBody).

(** One [axios.post] as issued: the URL, the GraphQL document, and the
    string that [parseInt] turns into the timeout. *)
Record Post := { url : string; query : string; timeout : string }.

(** Decoded claims of a self-contained token. *)
Record Claims := {
  c_userId : option JsId;
  c_sub : option JsId;
  c_id : option JsId;
  c_email : JsonString;
  c_nombre : option string;
  c_role : option string;
  c_roles : option (list string);
  c_permissions : option (list string)
}.

Inductive JwtOutcome :=
| Verified (decoded : Claims)
| VerifyThrows (e : JsError).

(** What the middleware reads from outside during one request. *)
Record Env := {
  getenv : string -> option string;             (* process.env *)
  now_lookup : Z;                               (* Date.now() at the cache lookup *)
  now_store : Z;                                (* Date.now() once the authority answered *)
  axios_post : Post -> AxiosOutcome;
  jwt_verify : string -> string -> JwtOutcome   (* token, secret *)
}.

(** Module state, the request in flight, and the observable effects. *)
Record World := {
  tokenCache : gmap string CacheEntry;
  logged : list LogEntry;
  posts : list Post;
  req : Request;
  res : Response;
  nexts : nat                                    (* calls of next() *)
}.

(** *** State and exceptions *)

Inductive Outcome (A : Type) :=
| Returns (a : A)
| Throws (e : JsError).
Arguments Returns {A} a.
Arguments Throws {A} e.

Definition M (A : Type) : Type := World -> Outcome A * World.

Definition ret {A} (a : A) : M A := fun w => (Returns a, w).

Definition bind {A B} (m : M A) (k : A -> M B) : M B :=
  fun w =>
    match m w with
    | (Returns a, w') => k a w'
    | (Throws e, w') => (Throws e, w')
    end.

Definition throw {A} (e : JsError) : M A := fun w => (Throws e, w).

(** [try { body } catch (error) { handler }]. *)
Definition try_catch {A} (body : M A) (handler : JsError -> M A) : M A :=
  fun w =>
    match body w with
    | (Returns a, w') => (Returns a, w')
    | (Throws e, w') => handler e w'
    end.

Definition gets {A} (f : World -> A) : M A := fun w => (Returns (f w), w).
Definition modify (f : World -> World) : M unit := fun w => (Returns tt, f w).

Declare Scope js_scope.
Delimit Scope js_scope with js.
Notation "'let*' x ':=' c 'in' k" := (bind c (fun x => k))
  (at level 10, x name, c at level 100, k at level 200) : js_scope.
Notation "c ';;' k" := (bind c (fun _ => k))
  (at level 100, k at level 200, right associativity) : js_scope.
Local Open Scope js_scope.

Definition set_tokenCache (c : gmap string CacheEntry) (w : World) : World :=
  {| tokenCache := c; logged := logged w; posts := posts w;
     req := req w; res := res w; nexts := nexts w |}.

Definition add_log (l : LogEntry) (w : World) : World :=
  {| tokenCache := tokenCache w; logged := logged w ++ [l]; posts := posts w;
     req := req w; res := res w; nexts := nexts w |}.

Definition add_post (p : Post) (w : World) : World :=
  {| tokenCache := tokenCache w; logged := logged w; posts := posts w ++ [p];
     req := req w; res := res w; nexts := nexts w |}.

Definition set_auth (a : AuthContext) (w : World) : World :=
  {| tokenCache := tokenCache w; logged := logged w; posts := posts w;
     req := {| authorization := authorization (req w); auth := Some a |};
     res := res w; nexts := nexts w |}.

Definition set_res (r : Response) (w : World) : World :=
  {| tokenCache := tokenCache w; logged := logged w; posts := posts w;
     req := req w; res := r; nexts := nexts w |}.

Definition add_next (w : World) : World :=
  {| tokenCache := tokenCache w; logged := logged w; posts := posts w;
     req := req w; res := res w; nexts := S (nexts w) |}.

(** [logger.error], [logger.warn], [logger.info], [logger.debug]. *)
Definition logger (l : LogLevel) (m : string) : M unit :=
  modify (add_log {| level := l; message := m |}).

(** [next()]. *)
Definition next : M unit := modify add_next.

(** [res.status(c).json({ error, message })]. *)
Definition respond (c : Z) (e m : string) : M unit :=
  modify (set_res {| status := Some c; body := Some (e, m) |}).

(** [a || b] on possibly absent strings and ids. *)
Definition or_string (a b : option string) : option string :=
  match a with
  | Some s => if Js.truthy s then Some s else b
  | None => b
  end.

Definition or_id (a b : option JsId) : option JsId :=
  match a with
  | Some i => if id_truthy i then Some i else b
  | None => b
  end.

(** Inside a template literal: a value that is a string or [undefined]
    (the first part of a split, the outcome of [a || b] on strings and
    array entries, the scheme tag), and a string of parsed JSON. *)
Definition show (o : option string) : string := default "undefined" o.

Definition show_json (v : JsonString) : string :=
  match v with
  | JAbsent => "undefined"
  | JNull => "null"
  | JStr s => s
  end.

(** [process.env.NAME || fallback]. *)
Definition env_or (e : Env) (name fallback : string) : string :=
  default fallback (or_string (getenv e name) None).

(** *** The functions of the module *)

(** [getJWTSecret]. *)
Definition getJWTSecret (e : Env) : M string :=
  let secret := env_or e "JWT_SECRET" "change-me-in-production" in
  (if String.eqb secret "change-me-in-production"
      && bool_decide (getenv e "NODE_ENV" = Some "production")
   then logger LWarn "JWT_SECRET is using default value in production!"
   else ret tt) ;;
  ret secret.

(** [extractToken]: [None] is the source's [null]. *)
Definition extractToken : M (option string) :=
  let* authHeader := gets (fun w => authorization (req w)) in
  match or_string authHeader None with
  | None => ret None
  | Some authHeader =>
      let parts := Js.split " " authHeader in
      match parts with
      | [p0; p1] =>
          if String.eqb p0 "Bearer" then ret (Some p1)
          else
            logger LDebug ("Invalid Authorization header format: " +:+ p0) ;;
            ret None
      | _ =>
          logger LDebug ("Invalid Authorization header format: " +:+ show (head parts)) ;;
          ret None
      end
  end.

(** [detectTokenType]. *)
Definition detectTokenType (token : string) : TokenType :=
  if Js.includes_char "|" token then sanctum else jwt.

(** [getCacheKey]. *)
Definition getCacheKey (token : string) : string :=
  "token:" +:+ MD5.hexdigest token.

(** [getCachedValidation], with the value of [Date.now()]. *)
Definition getCachedValidation (now : Z) (token : string) : M (option AuthUser) :=
  let cacheKey := getCacheKey token in
  let* cached := gets (fun w => tokenCache w !! cacheKey) in
  match cached with
  | None => ret None
  | Some cached =>
      if now >? expiresAt cached then
        modify (fun w => set_tokenCache (delete cacheKey (tokenCache w)) w) ;;
        ret None
      else
        logger LDebug ("Token validation cache hit for token: "
                       +:+ Js.prefix 10 token +:+ "...") ;;
        ret (Some (userData cached))
  end.

(** [cacheValidation], with the value of [Date.now()]. *)
Definition cacheValidation (now : Z) (token : string) (userData : AuthUser) : M unit :=
  let cacheKey := getCacheKey token in
  let expiresAt := now + CACHE_TTL_SECONDS * 1000 in
  modify (fun w =>
    set_tokenCache
      (<[cacheKey := {| userData := userData; expiresAt := expiresAt |}]> (tokenCache w)) w) ;;
  logger LDebug ("Cached token validation for "
                 +:+ Js.show_nat (Z.to_nat CACHE_TTL_SECONDS) +:+ "s").

Definition nl : string := String "010"%char EmptyString.
Definition dq : string := String "034"%char EmptyString.
Definition sp (n : nat) : string := string_of_list_ascii (repeat " "%char n).

(** The GraphQL document sent to the authority. *)
Definition validateToken_query (token : string) : string :=
  nl +:+ sp 10 +:+ "query {" +:+ nl
     +:+ sp 12 +:+ "validateToken(token: " +:+ dq +:+ token +:+ dq +:+ ") {" +:+ nl
     +:+ sp 14 +:+ "id" +:+ nl
     +:+ sp 14 +:+ "email" +:+ nl
     +:+ sp 14 +:+ "nombre" +:+ nl
     +:+ sp 14 +:+ "role" +:+ nl
     +:+ sp 12 +:+ "}" +:+ nl
     +:+ sp 10 +:+ "}" +:+ nl
     +:+ sp 8.

Definition sanctum_context (token : string) (u : AuthUser) : AuthContext :=
  {| authenticated := true; user := Some u;
     token := Some token; tokenType := Some sanctum |}.

(** [validateSanctumToken]. *)
Definition validateSanctumToken (e : Env) (token : string) : M unit :=
  let* cachedUser := getCachedValidation (now_lookup e) token in
  match cachedUser with
  | Some cachedUser => modify (set_auth (sanctum_context token cachedUser))
  | None =>
      @try_catch unit
        (let authServiceUrl :=
           env_or e "MS_AUTENTIFICACION_URL" "http://localhost:8000/graphql" in
         logger LDebug ("Validating Sanctum token against " +:+ authServiceUrl) ;;
         let p := {| url := authServiceUrl;
                     query := validateToken_query token;
                     timeout := env_or e "MS_AUTH_TIMEOUT" "5000" |} in
         modify (add_post p) ;;
         match axios_post e p with
         | Rejected err => throw err
         | Resolved response_data =>
             match response_data ≫= errors with
             | Some (m :: _) =>
                 logger LWarn ("GraphQL error validating token: " +:+ m) ;;
                 throw (mkError "Token validation failed")
             | Some [] =>
                 (* errors[0] is undefined *)
                 throw {| cls := TypeError;
                          msg := "Cannot read properties of undefined (reading 'message')" |}
             | None =>
                 let userData := (response_data ≫= data) ≫= validateToken in
                 match userData with
                 | Some userData =>
                     if default false (id_truthy <$> id userData) then
                       cacheValidation (now_store e) token userData ;;
                       modify (set_auth (sanctum_context token userData)) ;;
                       logger LDebug ("Sanctum token validated for user: "
                                      +:+ show_json (email userData))
                     else
                       logger LWarn "Token validation returned no user data" ;;
                       throw (mkError "Invalid token")
                 | None =>
                     logger LWarn "Token validation returned no user data" ;;
                     throw (mkError "Invalid token")
                 end
             end
         end)
        (fun error =>
           (if bool_decide (error_code error = Some "ECONNREFUSED") then
              logger LError "MS Autentificación service is unreachable"
            else if bool_decide (error_code error = Some "ECONNABORTED") then
              logger LError "MS Autentificación request timeout"
            else
              logger LError ("Sanctum token validation failed: " +:+ show_error error)) ;;
           throw (mkError "Failed to validate Sanctum token"))
  end.

Definition jwt_context (token : string) (decoded : Claims) : AuthContext :=
  {| authenticated := true;
     user := Some {| id := or_id (c_userId decoded) (or_id (c_sub decoded) (c_id decoded));
                     email := c_email decoded;
                     nombre := c_nombre decoded;
                     role := c_role decoded;
                     roles := c_roles decoded;
                     permissions := c_permissions decoded |};
     token := Some token; tokenType := Some jwt |}.

(** [validateJWTToken]. *)
Definition validateJWTToken (e : Env) (token : string) : M unit :=
  @try_catch unit
    (let* secret := getJWTSecret e in
     match jwt_verify e token secret with
     | VerifyThrows err => throw err
     | Verified decoded =>
         logger LDebug ("JWT token validated for user: " +:+ show_json (c_email decoded)) ;;
         modify (set_auth (jwt_context token decoded))
     end)
    (fun error =>
       match cls error with
       | TokenExpiredError =>
           logger LWarn ("JWT token expired: " +:+ msg error) ;;
           throw (mkError "Token expired")
       | JsonWebTokenError =>
           logger LWarn ("Invalid JWT token: " +:+ msg error) ;;
           throw (mkError "Invalid token")
       | _ =>
           logger LError ("JWT validation error: " +:+ show_error error) ;;
           throw (mkError "Token validation failed")
       end).

(** [req.auth.user?.email] and [req.auth.tokenType]. *)
Definition auth_email (a : option AuthContext) : JsonString :=
  match a ≫= user with
  | Some u => email u
  | None => JAbsent
  end.
Definition auth_tokenType (a : option AuthContext) : option TokenType :=
  a ≫= tokenType.

(** [authenticateRequest]. *)
Definition authenticateRequest (e : Env) : M unit :=
  modify (set_auth anonymous) ;;
  let* token := extractToken in
  match or_string token None with
  | None =>
      logger LDebug "No token provided in request" ;;
      next
  | Some token =>
      try_catch
        (let tokenType := detectTokenType token in
         logger LDebug ("Processing " +:+ show_TokenType tokenType +:+ " token: "
                        +:+ Js.prefix 20 token +:+ "...") ;;
         match tokenType with
         | sanctum => validateSanctumToken e token
         | jwt => validateJWTToken e token
         end ;;
         let* a := gets (fun w => auth (req w)) in
         logger LInfo ("Authentication successful for user: "
                       +:+ show_json (auth_email a) +:+ " ("
                       +:+ show (show_TokenType <$> auth_tokenType a) +:+ ")"))
        (fun error =>
           logger LWarn ("Authentication failed: " +:+ show_error error) ;;
           modify (set_auth anonymous)) ;;
      next
  end.

Definition is_authenticated (w : World) : bool :=
  default false (authenticated <$> auth (req w)).

(** [requireAuth]. *)
Definition requireAuth : M unit :=
  let* ok := gets is_authenticated in
  if negb ok then
    logger LWarn "Unauthorized access attempt" ;;
    respond 401 "Unauthorized" "Authentication required"
  else next.

(** [requireRole(allowedRoles)]. *)
Definition requireRole (allowedRoles : list string) : M unit :=
  let* ok := gets is_authenticated in
  if negb ok then
    logger LWarn "Unauthorized access attempt (not authenticated)" ;;
    respond 401 "Unauthorized" "Authentication required"
  else
    let* u := gets (fun w => auth (req w) ≫= user) in
    let userRole := or_string (u ≫= role) ((u ≫= roles) ≫= head) in
    match or_string userRole None with
    | Some r =>
        if Js.includes allowedRoles r then next
        else
          logger LWarn ("Forbidden access attempt: user role " +:+ dq +:+ r +:+ dq
                        +:+ " not in allowed roles: " +:+ Js.join ", " allowedRoles) ;;
          respond 403 "Forbidden" "Insufficient permissions"
    | None =>
        logger LWarn ("Forbidden access attempt: user role " +:+ dq +:+ show userRole +:+ dq
                      +:+ " not in allowed roles: " +:+ Js.join ", " allowedRoles) ;;
        respond 403 "Forbidden" "Insufficient permissions"
    end.

(** [clearTokenCache]. *)
Definition clearTokenCache (token : string) : M unit :=
  let cacheKey := getCacheKey token in
  modify (fun w => set_tokenCache (delete cacheKey (tokenCache w)) w) ;;
  logger LDebug ("Cleared cache for token: " +:+ Js.prefix 10 token +:+ "...").

(** [cleanExpiredCache], with the value of [Date.now()]. *)
Definition cleanExpiredCache (now : Z) : M nat :=
  let* c := gets tokenCache in
  let kept := filter (fun kv => ¬ (now > expiresAt kv.2)) c in
  let cleaned := (size c - size kept)%nat in
  modify (set_tokenCache kept) ;;
  (if (0 <? cleaned)%nat then
     logger LDebug ("Cleaned " +:+ Js.show_nat cleaned +:+ " expired cache entries")
   else ret tt) ;;
  ret cleaned.

End Auth.

(** ** The earlier JWT-only middleware: its role check *)

Module Legacy.
Import Auth.
Local Open Scope js_scope.

(** [requireRole(allowedRoles)] of [dist/middleware/authentication.js]. *)
Definition requireRole (allowedRoles : list string) : M unit :=
  let* ok := gets is_authenticated in
  if negb ok then
    respond 401 "Unauthorized" "Authentication required"
  else
    let* u := gets (fun w => auth (req w) ≫= user) in
    let userRoles := default [] (u ≫= roles) in
    let hasRole := existsb (fun role => Js.includes userRoles role) allowedRoles in
    if negb hasRole then
      logger LWarn "Forbidden access attempt" ;;
      respond 403 "Forbidden" "Insufficient permissions"
    else next.

End Legacy.

(** ** Subgraph configuration and the resilient service checker *)

Module Gateway.

(** [process.env]. *)
Definition ProcessEnv : Type := string -> option string.

Record SubgraphConfig := {
  name : string;
  url : string;
  timeout : Z;
  retries : Z
}.

(** [getSubgraphURL]. *)
Definition getSubgraphURL (env : ProcessEnv) (envVar defaultUrl : string) : string :=
  default defaultUrl (Auth.or_string (env envVar) None).

(** [enabledServices]. *)
Definition enabledServices (env : ProcessEnv) : list string :=
  match Auth.or_string (env "ENABLED_SERVICES") None with
  | Some v => map Js.trim (Js.split "," v)
  | None => ["despacho"]
  end.

Definition entry (env : ProcessEnv) (n envVar defaultUrl : string) : list SubgraphConfig :=
  if Js.includes (enabledServices env) n then
    [{| name := n; url := getSubgraphURL env envVar defaultUrl;
        timeout := 10000; retries := 3 |}]
  else [].

(** [SUBGRAPH_CONFIG]. *)
Definition SUBGRAPH_CONFIG (env : ProcessEnv) : list SubgraphConfig :=
  entry env "autentificacion" "MS_AUTENTIFICACION_URL" "http://localhost:8000/graphql"
  ++ entry env "despacho" "MS_DESPACHO_URL" "http://localhost:8001/graphql"
  ++ entry env "recepcion" "MS_RECEPCION_URL" "http://localhost:8080/api/graphql"
  ++ entry env "websocket" "MS_WEBSOCKET_URL" "http://localhost:4004/graphql"
  ++ entry env "decision" "MS_DECISION_URL" "http://localhost:8002/graphql"
  ++ entry env "ml_despacho" "MS_ML_DESPACHO_URL" "http://localhost:5001/graphql".

(** A JavaScript [Set<string>]: distinct elements in insertion order. *)
Definition JsSet : Type := list string.

Definition set_has (s : JsSet) (x : string) : bool := Js.includes s x.

Definition set_add (x : string) (s : JsSet) : JsSet :=
  if set_has s x then s else (s ++ [x])%list.

Definition set_delete (x : string) (s : JsSet) : JsSet :=
  List.filter (fun y => negb (String.eqb y x)) s.

(** The outcome of one [fetch] probe: a response with its [ok] flag,
    or a rejection (network error, or the abort after 5000 ms). *)
Inductive FetchOutcome :=
| FetchResponse (ok : bool)
| FetchRejects.

(** [class ResilientServiceChecker]: its two private sets, and the
    lines it logs. *)
Record Checker := {
  this_unavailableServices : JsSet;
  this_availableServices : JsSet;
  info_log : list string
}.

(** [new ResilientServiceChecker()]. *)
Definition new_checker (cfg : list SubgraphConfig) : Checker :=
  {| this_unavailableServices := [];
     this_availableServices := [];
     info_log := ["[RESILIENT GATEWAY] Initialized service checker for "
                  +:+ Js.show_nat (List.length cfg) +:+ " service(s)"] |}.

Record ResilientGatewayStatus := {
  availableServices : list string;
  unavailableServices : list string;
  totalConfigured : nat
}.

(** The loop state of [checkServiceHealth]: the two local arrays and
    the object. *)
Record Loop := {
  available : list string;
  unavailable : list string;
  this : Checker
}.

(** One iteration of the [for ... of SUBGRAPH_CONFIG] loop. *)
Definition probe (fetch : string -> FetchOutcome) (st : Loop) (config : SubgraphConfig) : Loop :=
  let c := this st in
  match fetch (url config +:+ "?query={__schema{types{name}}}") with
  | FetchResponse true =>
      let recovered := set_has (this_unavailableServices c) (name config) in
      {| available := available st ++ [name config];
         unavailable := unavailable st;
         this :=
           {| this_unavailableServices :=
                if recovered then set_delete (name config) (this_unavailableServices c)
                else this_unavailableServices c;
              this_availableServices := set_add (name config) (this_availableServices c);
              info_log :=
                if recovered then
                  info_log c ++ ["[RESILIENT GATEWAY] ✓ Service recovered: " +:+ name config]
                else info_log c |} |}
  | FetchResponse false | FetchRejects =>
      {| available := available st;
         unavailable := unavailable st ++ [name config];
         this :=
           {| this_unavailableServices := set_add (name config) (this_unavailableServices c);
              this_availableServices := this_availableServices c;
              info_log := info_log c |} |}
  end.

(** [checkServiceHealth]. *)
Definition checkServiceHealth (cfg : list SubgraphConfig) (fetch : string -> FetchOutcome)
    (c : Checker) : ResilientGatewayStatus * Checker :=
  let st := fold_left (probe fetch) cfg
              {| available := []; unavailable := []; this := c |} in
  ({| availableServices := available st;
      unavailableServices := unavailable st;
      totalConfigured := List.length cfg |},
   this st).

(** [getStatus]. *)
Definition getStatus (cfg : list SubgraphConfig) (c : Checker) : ResilientGatewayStatus :=
  {| availableServices := this_availableServices c;
     unavailableServices := this_unavailableServices c;
     totalConfigured := List.length cfg |}.

(** Whether the probe of [config] finds it reachable. *)
Definition reachable (fetch : string -> FetchOutcome) (config : SubgraphConfig) : bool :=
  match fetch (url config +:+ "?query={__schema{types{name}}}") with
  | FetchResponse true => true
  | _ => false
  end.

End Gateway.

(** ** Start-up of the gateway server and its readiness flags *)

Module Server.

(** The module-level flags, whether the [/graphql] routes were
    registered, and whether the HTTP server listens. *)
Record Readiness := {
  serverStarted : bool;
  schemaReady : bool;
  graphql_routes : bool;
  listening : bool
}.

(** [let serverStarted = false; let schemaReady = false;]. *)
Definition initial : Readiness :=
  {| serverStarted := false; schemaReady := false;
     graphql_routes := false; listening := false |}.

(** What can happen to the server once it is constructed. *)
Inductive Event :=
| StartResolved                      (* apolloServer.start() fulfils *)
| StartRejected (errorMsg : string)  (* apolloServer.start() rejects *)
| SchemaComposed                     (* a later poll of the engine composes a schema *)
| HealthDetailed.                    (* GET /health/detailed *)

(** The continuation [startupPromise.then(...)]: routes are registered
    only if the schema is ready at that moment; then the server
    listens. *)
Definition after_startup (s : Readiness) : Readiness :=
  {| serverStarted := serverStarted s; schemaReady := schemaReady s;
     graphql_routes := schemaReady s; listening := true |}.

(** The reaction of the code to an event.  [apolloServer.start()]
    settles once; the two callbacks of [startupPromise] hold the only
    assignments to the flags, and nothing is subscribed to later
    compositions. *)
Definition step (s : Readiness) (ev : Event) : Readiness :=
  match ev with
  | StartResolved =>
      if serverStarted s then s
      else after_startup
             {| serverStarted := true; schemaReady := true;
                graphql_routes := graphql_routes s; listening := listening s |}
  | StartRejected _ =>
      if serverStarted s then s
      else after_startup
             {| serverStarted := true; schemaReady := false;
                graphql_routes := graphql_routes s; listening := listening s |}
  | SchemaComposed => s
  | HealthDetailed => s
  end.

Definition run (s : Readiness) (evs : list Event) : Readiness :=
  fold_left step evs s.

(** The readiness part of the [/health/detailed] answer. *)
Record HealthReport := {
  r_schemaReady : bool;
  r_serverStarted : bool;
  r_readyForRequests : bool
}.

Definition health_detailed (s : Readiness) : HealthReport :=
  {| r_schemaReady := schemaReady s;
     r_serverStarted := serverStarted s;
     r_readyForRequests := schemaReady s |}.

End Server.

(** ** The endpoints of the server that use the two modules *)

Module Endpoints.

(** The GraphQL context that the [/graphql] routes build from a request
    that went through [authenticateRequest]. *)
Record Context := {
  authenticated : bool;
  user : option Auth.AuthUser;
  token : option string;
  userId : option Auth.JsId;
  tokenType : option Auth.TokenType
}.

(** [context: async ({ req }) => ...]. *)
Definition context (authReq : Auth.Request) : Context :=
  {| authenticated := default false (Auth.authenticated <$> Auth.auth authReq);
     user := Auth.auth authReq ≫= Auth.user;
     token := Auth.auth authReq ≫= Auth.token;
     userId := (Auth.auth authReq ≫= Auth.user) ≫= Auth.id;
     tokenType := Auth.auth authReq ≫= Auth.tokenType |}.

(** The answer of [GET /health/detailed], less its two clock readings
    ([timestamp] and [uptime]). *)
Record DetailedHealth := {
  status : string;
  service : string;
  mode : string;
  schemaReady : bool;
  serverStarted : bool;
  services : Gateway.ResilientGatewayStatus;
  allHealthy : bool;
  partiallyHealthy : bool;
  readyForRequests : bool
}.

(** The handler of [GET /health/detailed]: it runs the checker of the
    gateway module and reads the two flags of the server. *)
Definition health_detailed (cfg : list Gateway.SubgraphConfig)
    (fetch : string -> Gateway.FetchOutcome) (s : Server.Readiness) (c : Gateway.Checker)
    : DetailedHealth * Gateway.Checker :=
  let '(healthStatus, c') := Gateway.checkServiceHealth cfg fetch c in
  ({| status := "ok";
      service := "apollo-gateway";
      mode := "resilient";
      schemaReady := Server.schemaReady s;
      serverStarted := Server.serverStarted s;
      services :=
        {| Gateway.availableServices := Gateway.availableServices healthStatus;
           Gateway.unavailableServices := Gateway.unavailableServices healthStatus;
           Gateway.totalConfigured := Gateway.totalConfigured healthStatus |};
      allHealthy := (length (Gateway.unavailableServices healthStatus) =? 0)%nat;
      partiallyHealthy := (0 <? length (Gateway.availableServices healthStatus))%nat;
      readyForRequests := Server.schemaReady s |},
   c').

End Endpoints.

(** * Vocabulary of the properties *)

Import Auth.
Local Open Scope js_scope.

Arguments getCacheKey : simpl never.
Arguments validateSanctumToken : simpl never.
Arguments validateJWTToken : simpl never.
Arguments extractToken : simpl never.

(** ** Remote validation *)

(** The [axios.post] that [validateSanctumToken] issues for a token. *)
Definition authority_post (e : Env) (tok : string) : Post :=
  {| url := env_or e "MS_AUTENTIFICACION_URL" "http://localhost:8000/graphql";
     query := validateToken_query tok;
     timeout := env_or e "MS_AUTH_TIMEOUT" "5000" |}.

(** The ways a remote validation fails. *)
Inductive RemoteFailure : AxiosOutcome -> Prop :=
| transport_failure (err : JsError) :
    RemoteFailure (Rejected err)
| graphql_errors (b : GraphQLBody) (errs : list string) :
    errors b = Some errs -> RemoteFailure (Resolved (Some b))
| no_body :
    RemoteFailure (Resolved None)
| no_user_data (b : GraphQLBody) :
    (data b ≫= validateToken) = None -> RemoteFailure (Resolved (Some b))
| missing_id (b : GraphQLBody) (u : AuthUser) :
    (data b ≫= validateToken) = Some u -> id u = None ->
    RemoteFailure (Resolved (Some b))
| empty_id (b : GraphQLBody) (u : AuthUser) (i : JsId) :
    (data b ≫= validateToken) = Some u -> id u = Some i -> id_truthy i = false ->
    RemoteFailure (Resolved (Some b)).

(** The identity an answer of the authority carries, if it is accepted. *)
Definition accepted (o : AxiosOutcome) : option AuthUser :=
  match o with
  | Rejected _ => None
  | Resolved response_data =>
      match response_data ≫= errors with
      | Some _ => None
      | None =>
          match (response_data ≫= data) ≫= validateToken with
          | Some u => if default false (id_truthy <$> id u) then Some u else None
          | None => None
          end
      end
  end.

(** ** The authentication gate *)

(** The secret handed to [jwt.verify]. *)
Definition jwt_secret (e : Env) : string :=
  env_or e "JWT_SECRET" "change-me-in-production".

(** The validator that [authenticateRequest] routes a token to. *)
Definition routed (e : Env) (tok : string) : M unit :=
  match detectTokenType tok with
  | sanctum => validateSanctumToken e tok
  | jwt => validateJWTToken e tok
  end.

(** When a validation fails, in terms of what the gate is given: for an
    opaque token, no unexpired cache entry serves it and the remote
    validation fails; for a signed token, [jwt.verify] throws (expired,
    bad signature, malformed, or anything else). *)
Definition validation_fails (e : Env) (tok : string) (w : World) : Prop :=
  match detectTokenType tok with
  | sanctum =>
      (forall c, tokenCache w !! getCacheKey tok = Some c -> expiresAt c < now_lookup e)
      /\ RemoteFailure (axios_post e (authority_post e tok))
  | jwt => exists err, jwt_verify e tok (jwt_secret e) = VerifyThrows err
  end.

(** The lines [authenticateRequest] logs. *)
Definition log_processing (tok : string) : LogEntry :=
  {| level := LDebug;
     message := "Processing " +:+ show_TokenType (detectTokenType tok) +:+ " token: "
                +:+ Js.prefix 20 tok +:+ "..." |}.

Definition log_success (w : World) : LogEntry :=
  {| level := LInfo;
     message := "Authentication successful for user: "
                +:+ show_json (auth_email (auth (req w))) +:+ " ("
                +:+ show (show_TokenType <$> auth_tokenType (auth (req w))) +:+ ")" |}.

Definition log_failed (err : JsError) : LogEntry :=
  {| level := LWarn; message := "Authentication failed: " +:+ show_error err |}.

Definition log_no_token : LogEntry :=
  {| level := LDebug; message := "No token provided in request" |}.

(** A header that is absent, or does not split at spaces into exactly
    two parts, or whose first part is not [Bearer]. *)
Definition malformed_header (h : option string) : Prop :=
  match h with
  | None => True
  | Some s =>
      length (Js.split " " s) <> 2%nat \/ head (Js.split " " s) <> Some "Bearer"
  end.

(** ** Role checks *)

(** The identity's role set: its [role] and all entries of [roles]. *)
Definition role_set (u : AuthUser) : list string :=
  (option_list (role u) ++ default [] (roles u))%list.

Definition intersects (l1 l2 : list string) : Prop :=
  exists r, In r l1 /\ In r l2.

(** What a middleware did with a request: handed it on, or answered
    with a status code. *)
Definition passes (w w' : World) : Prop :=
  nexts w' = S (nexts w) /\ res w' = res w.

Definition rejects (code : Z) (w w' : World) : Prop :=
  nexts w' = nexts w /\ status (res w') = Some code.

(** ** Sample values *)

Definition alice : AuthUser :=
  {| id := Some (IdNumber 7); email := JStr "alice@example.org";
     nombre := Some "Alice"; role := Some "ADMIN";
     roles := None; permissions := None |}.

(** A user whose primary role is [USER] and who also holds [ADMIN]. *)
Definition bob : AuthUser :=
  {| id := Some (IdString "42"); email := JStr "bob@example.org";
     nombre := None; role := Some "USER";
     roles := Some ["USER"; "ADMIN"]; permissions := None |}.

Definition blank_request (header : option string) : Request :=
  {| authorization := header; auth := None |}.

Definition blank_response : Response := {| status := None; body := None |}.

Definition world0 (header : option string) : World :=
  {| tokenCache := ∅; logged := []; posts := [];
     req := blank_request header; res := blank_response; nexts := 0 |}.

(** A world in which the gate has attached [u] as authenticated. *)
Definition world_of (u : AuthUser) : World :=
  {| tokenCache := ∅; logged := []; posts := [];
     req := {| authorization := Some "Bearer t";
               auth := Some {| authenticated := true; user := Some u;
                               token := Some "t"; tokenType := Some jwt |} |};
     res := blank_response; nexts := 0 |}.

(** Two environments: the authority is down, or it vouches for [alice]. *)
Definition env_down (t : Z) : Env :=
  {| getenv := fun _ => None;
     now_lookup := t; now_store := t + 40;
     axios_post := fun _ =>
       Rejected {| cls := AxiosError (Some "ECONNREFUSED");
                   msg := "connect ECONNREFUSED 127.0.0.1:8000" |};
     jwt_verify := fun _ _ =>
       VerifyThrows {| cls := JsonWebTokenError; msg := "jwt malformed" |} |}.

Definition env_up (t : Z) : Env :=
  {| getenv := fun _ => None;
     now_lookup := t; now_store := t + 40;
     axios_post := fun _ =>
       Resolved (Some {| errors := None;
                         data := Some {| validateToken := Some alice |} |});
     jwt_verify := fun _ _ =>
       VerifyThrows {| cls := JsonWebTokenError; msg := "jwt malformed" |} |}.

(** An environment enabling two services, and probes that find
    [despacho] up and [autentificacion] down, or the reverse. *)
Definition env_two : Gateway.ProcessEnv :=
  fun k => if String.eqb k "ENABLED_SERVICES" then Some "autentificacion, despacho" else None.

Definition fetch_despacho_up (u : string) : Gateway.FetchOutcome :=
  if String.eqb u "http://localhost:8001/graphql?query={__schema{types{name}}}"
  then Gateway.FetchResponse true else Gateway.FetchRejects.

Definition fetch_despacho_down (u : string) : Gateway.FetchOutcome :=
  if String.eqb u "http://localhost:8001/graphql?query={__schema{types{name}}}"
  then Gateway.FetchResponse false else Gateway.FetchResponse true.

Definition despacho : Gateway.SubgraphConfig :=
  {| Gateway.name := "despacho"; Gateway.url := "http://localhost:8001/graphql";
     Gateway.timeout := 10000; Gateway.retries := 3 |}.

(** ** Further vocabulary *)

(** The two answers of the authorization middlewares. *)
Definition unauthorized : Response :=
  {| status := Some 401; body := Some ("Unauthorized", "Authentication required") |}.

Definition forbidden : Response :=
  {| status := Some 403; body := Some ("Forbidden", "Insufficient permissions") |}.

(** A value of [a || b] that lets [b] through: absent, the empty string
    or zero. *)
Definition falsy_id (o : option JsId) : Prop :=
  o = None \/ o = Some (IdString "") \/ o = Some (IdNumber 0).

(** One request through two middlewares in a row. *)
Definition then_run (m1 m2 : M unit) (w : World) : World := (m2 (m1 w).2).2.

(** The same world with another request and another response. *)
Definition with_exchange (r : Request) (rs : Response) (w : World) : World :=
  {| tokenCache := tokenCache w; logged := logged w; posts := posts w;
     req := r; res := rs; nexts := nexts w |}.

(** The entries a sweep at time [now] removes. *)
Definition expired_at (now : Z) (c : gmap string CacheEntry) : gmap string CacheEntry :=
  filter (fun kv => now > expiresAt kv.2) c.

(** *** What the configuration reads from [ENABLED_SERVICES] *)

(** The UTF-8 bytes of a code point below U+10000. *)
Definition utf8 (cp : Z) : string :=
  if cp <? 128 then Js.bytes [cp]
  else if cp <? 2048 then Js.bytes [192 + cp / 64; 128 + cp mod 64]
  else Js.bytes [224 + cp / 4096; 128 + (cp / 64) mod 64; 128 + cp mod 64].

(** The code points ECMAScript classes as white space or as line
    terminators: TAB, LF, VT, FF, CR, SP, NBSP, U+1680, U+2000 to U+200A,
    LS, PS, U+202F, U+205F, U+3000 and the byte order mark. *)
Definition white_space_code_points : list Z :=
  [9; 10; 11; 12; 13; 32; 160; 5760;
   8192; 8193; 8194; 8195; 8196; 8197; 8198; 8199; 8200; 8201; 8202;
   8232; 8233; 8239; 8287; 12288; 65279].

(** A string that is a sequence of the given pieces. *)
Inductive made_of (ws : list string) : string -> Prop :=
| made_of_nil : made_of ws ""
| made_of_cons (p s : string) : In p ws -> made_of ws s -> made_of ws (p +:+ s).

(** A string of white space only. *)
Definition blank (s : string) : Prop :=
  made_of (map utf8 white_space_code_points) s.

(** [p] is one of the parts of [v] between its commas. *)
Definition part_of (v p : string) : Prop :=
  ~ In ","%char (list_ascii_of_string p)
  /\ exists pre post,
       v = pre +:+ p +:+ post
       /\ (pre = "" \/ exists x, pre = x +:+ ",")
       /\ (post = "" \/ exists y, post = "," +:+ y).

(** [ENABLED_SERVICES] lists the service [n]: one of its parts is [n]
    with white space around it; unset or empty, it lists [despacho]. *)
Definition listed (env : Gateway.ProcessEnv) (n : string) : Prop :=
  match env "ENABLED_SERVICES" with
  | Some v =>
      if String.eqb v "" then n = "despacho"
      else exists p l r, part_of v p /\ p = l +:+ n +:+ r /\ blank l /\ blank r
  | None => n = "despacho"
  end.

(** The services of the source: name, variable of the URL, default URL. *)
Definition service_table : list (string * string * string) :=
  [("autentificacion", "MS_AUTENTIFICACION_URL", "http://localhost:8000/graphql");
   ("despacho", "MS_DESPACHO_URL", "http://localhost:8001/graphql");
   ("recepcion", "MS_RECEPCION_URL", "http://localhost:8080/api/graphql");
   ("websocket", "MS_WEBSOCKET_URL", "http://localhost:4004/graphql");
   ("decision", "MS_DECISION_URL", "http://localhost:8002/graphql");
   ("ml_despacho", "MS_ML_DESPACHO_URL", "http://localhost:5001/graphql")].

(** Checks on a list of patterns: none is empty or a proper prefix of
    another; none starts with the character [a]. *)
Definition prefix_free (ws : list string) : bool :=
  forallb (fun p =>
    negb (String.eqb p "")
    && forallb (fun q => match Js.drop p q with
                         | Some z => String.eqb z ""
                         | None => true
                         end) ws) ws.

Definition none_starts_with (ws : list string) (a : ascii) : bool :=
  forallb (fun p => match p with
                    | String b _ => negb (Ascii.eqb b a)
                    | EmptyString => false
                    end) ws.

(** A name whose first and last characters belong to no white space. *)
Definition solid (n : string) : Prop :=
  exists a x b y,
    n = String a x /\ Js.rev_string n = String b y
    /\ none_starts_with Js.white_space a = true
    /\ none_starts_with (map Js.rev_string Js.white_space) b = true.

(** The six services the configuration knows, in its order. *)
Definition known_services : list string :=
  ["autentificacion"; "despacho"; "recepcion"; "websocket"; "decision"; "ml_despacho"].

(** Several [checkServiceHealth] runs in a row, one probe oracle each. *)
Definition runs (cfg : list Gateway.SubgraphConfig)
    (fetches : list (string -> Gateway.FetchOutcome)) (c : Gateway.Checker)
    : Gateway.Checker :=
  fold_left (fun c f => (Gateway.checkServiceHealth cfg f c).2) fetches c.

(** The line logged when a service is found reachable again. *)
Definition recovered_line (x : Gateway.SubgraphConfig) : string :=
  "[RESILIENT GATEWAY] ✓ Service recovered: " +:+ Gateway.name x.

(** A probe oracle that finds every endpoint reachable. *)
Definition fetch_all_up (u : string) : Gateway.FetchOutcome := Gateway.FetchResponse true.

(** * Properties *)

Ltac run_js :=
  unfold try_catch, bind, gets, modify, logger, next, respond, ret, throw; simpl.

(** ** Sanity checks of the primitives *)

Example md5_empty : MD5.hexdigest "" = "d41d8cd98f00b204e9800998ecf8427e".
Proof. vm_compute. reflexivity. Qed.

Example md5_abc : MD5.hexdigest "abc" = "900150983cd24fb0d6963f7d28e17f72".
Proof. vm_compute. reflexivity. Qed.

Example md5_two_blocks :
  MD5.hexdigest "aaaaaaaaaaaaaaaaaaaaaaaaaaaaaaaaaaaaaaaaaaaaaaaaaaaaaaaaaaaaaaaa"
  = "014842d480b571495a4a0363793f7367".
Proof. vm_compute. reflexivity. Qed.

Example getCacheKey_sanctum :
  getCacheKey "1|abc123xyz" = "token:20031dc6fc370e67401a362eadb82c62".
Proof. vm_compute. reflexivity. Qed.

Example split_double_space : Js.split " " "Bearer  x" = ["Bearer"; ""; "x"].
Proof. reflexivity. Qed.

Example split_trailing_space : Js.split " " "Bearer " = ["Bearer"; ""].
Proof. reflexivity. Qed.

Example trim_both : Js.trim "  despacho " = "despacho".
Proof. reflexivity. Qed.

Example show_nat_300 : Js.show_nat 300 = "300".
Proof. reflexivity. Qed.

(** ** The token classifier *)

Lemma includes_char_In (c : ascii) (s : string) :
  Js.includes_char c s = true <-> In c (list_ascii_of_string s).
Proof.
  induction s as [|a r IH]; simpl.
  - split; [discriminate | tauto].
  - destruct (Ascii.eqb_spec a c) as [->|Hne].
    + split; auto.
    + rewrite IH. split; [auto | intros [H|H]; [contradiction | exact H]].
Qed.

(** C8: [detectTokenType] answers [sanctum] exactly for the strings that
    contain the pipe character and [jwt] for all the others.  It is a
    total function of the string alone. *)
Theorem detectTokenType_classifies (token : string) :
  (detectTokenType token = sanctum <-> In "|"%char (list_ascii_of_string token))
  /\ (detectTokenType token = jwt <-> ~ In "|"%char (list_ascii_of_string token)).
Proof.
  unfold detectTokenType. rewrite <- includes_char_In.
  destruct (Js.includes_char "|" token); split; split;
    intros H; try discriminate; try reflexivity; try congruence.
Qed.

(** ** The validation cache *)

(** The state left by [cacheValidation]. *)
Lemma cacheValidation_run (now : Z) (tok : string) (u : AuthUser) (w : World) :
  exists w1,
    cacheValidation now tok u w = (Returns tt, w1)
    /\ tokenCache w1
       = <[getCacheKey tok := {| userData := u; expiresAt := now + 300000 |}]> (tokenCache w)
    /\ posts w1 = posts w /\ req w1 = req w /\ res w1 = res w /\ nexts w1 = nexts w.
Proof.
  unfold cacheValidation, bind, modify, logger. simpl.
  eexists. split; [reflexivity|]. simpl. auto.
Qed.

(** A lookup that finds an entry not yet past its expiry returns it and
    keeps the cache. *)
Lemma getCachedValidation_hit (now : Z) (tok : string) (c : CacheEntry) (w : World) :
  tokenCache w !! getCacheKey tok = Some c ->
  now <= expiresAt c ->
  exists w1,
    getCachedValidation now tok w = (Returns (Some (userData c)), w1)
    /\ tokenCache w1 = tokenCache w
    /\ posts w1 = posts w /\ req w1 = req w /\ res w1 = res w /\ nexts w1 = nexts w.
Proof.
  intros Hc Hle. unfold getCachedValidation, bind, gets. rewrite Hc.
  destruct (Z.gtb_spec now (expiresAt c)) as [Hgt|_]; [lia|].
  unfold modify, logger, ret. simpl. eexists. split; [reflexivity|]. simpl. auto.
Qed.

(** A lookup that finds an entry past its expiry deletes it and misses. *)
Lemma getCachedValidation_expired (now : Z) (tok : string) (c : CacheEntry) (w : World) :
  tokenCache w !! getCacheKey tok = Some c ->
  expiresAt c < now ->
  getCachedValidation now tok w
  = (Returns None, set_tokenCache (delete (getCacheKey tok) (tokenCache w)) w).
Proof.
  intros Hc Hlt. unfold getCachedValidation, bind, gets. rewrite Hc.
  destruct (Z.gtb_spec now (expiresAt c)) as [_|Hle]; [|lia].
  reflexivity.
Qed.

(** A lookup that finds nothing misses and changes nothing. *)
Lemma getCachedValidation_absent (now : Z) (tok : string) (w : World) :
  tokenCache w !! getCacheKey tok = None ->
  getCachedValidation now tok w = (Returns None, w).
Proof.
  intros Hc. unfold getCachedValidation, bind, gets. rewrite Hc. reflexivity.
Qed.

(** Whatever a lookup returns was stored and is not past its expiry. *)
Lemma getCachedValidation_sound (now : Z) (tok : string) (u : AuthUser) (w w1 : World) :
  getCachedValidation now tok w = (Returns (Some u), w1) ->
  exists c, tokenCache w !! getCacheKey tok = Some c
            /\ userData c = u /\ now <= expiresAt c.
Proof.
  unfold getCachedValidation, bind, gets.
  destruct (tokenCache w !! getCacheKey tok) as [c|] eqn:Hc; [|discriminate].
  destruct (Z.gtb_spec now (expiresAt c)) as [Hgt|Hle]; [discriminate|].
  unfold logger, modify, ret. simpl. intros H. exists c.
  repeat split; [congruence | lia].
Qed.

(** X20: a sweep of the cache does not change what any later lookup
    returns. *)
Lemma cleanExpiredCache_keeps_lookups (s t : Z) (tok : string) (w : World) :
  s <= t ->
  (getCachedValidation t tok (cleanExpiredCache s w).2).1
  = (getCachedValidation t tok w).1.
Proof.
  intros Hst. unfold cleanExpiredCache. run_js.
  set (kept := filter (fun kv => ~ s > expiresAt kv.2) (tokenCache w)).
  assert (Hw : forall w', tokenCache w' = kept ->
            (getCachedValidation t tok w').1 = (getCachedValidation t tok w).1).
  { intros w' Hw'. unfold getCachedValidation. run_js. rewrite Hw'.
    destruct (tokenCache w !! getCacheKey tok) as [c|] eqn:Hc.
    - destruct (Z.gtb_spec t (expiresAt c)) as [Hgt|Hle].
      + destruct (kept !! getCacheKey tok) as [c'|] eqn:Hc'; [|reflexivity].
        apply map_lookup_filter_Some in Hc' as [Hc' _].
        assert (c' = c) as -> by congruence.
        destruct (Z.gtb_spec t (expiresAt c)); [reflexivity|lia].
      + assert (Hk : kept !! getCacheKey tok = Some c).
        { apply map_lookup_filter_Some. split; [exact Hc|]. simpl. lia. }
        rewrite Hk. destruct (Z.gtb_spec t (expiresAt c)); [lia|reflexivity].
    - assert (Hk : kept !! getCacheKey tok = None).
      { apply map_lookup_filter_None. left. exact Hc. }
      rewrite Hk. reflexivity. }
  destruct (0 <? size (tokenCache w) - size kept)%nat; simpl; apply Hw; reflexivity.
Qed.

(** C1, as the code has it: an identity stored at time [T] is returned
    unchanged by every lookup at a time up to and including [T + 300 s];
    a lookup strictly after [T + 300 s] is a miss and evicts the entry;
    and no lookup, in any state, returns an entry that is past its
    [expiresAt]. *)
Theorem cache_entry_lifetime (T t : Z) (tok : string) (u : AuthUser) (w : World) :
  let w1 := (cacheValidation T tok u w).2 in
  (t <= T + 300 * 1000 ->
     exists w2, getCachedValidation t tok w1 = (Returns (Some u), w2)
                /\ tokenCache w2 = tokenCache w1)
  /\ (T + 300 * 1000 < t ->
     exists w2, getCachedValidation t tok w1 = (Returns None, w2)
                /\ tokenCache w2 !! getCacheKey tok = None)
  /\ (forall w0 u' w2,
        getCachedValidation t tok w0 = (Returns (Some u'), w2) ->
        exists c, tokenCache w0 !! getCacheKey tok = Some c
                  /\ userData c = u' /\ t <= expiresAt c).
Proof.
  destruct (cacheValidation_run T tok u w) as (w1 & Hrun & Hcache & _).
  rewrite Hrun. cbn [snd]. cbv zeta.
  assert (Hin : tokenCache w1 !! getCacheKey tok
                = Some {| userData := u; expiresAt := T + 300000 |}).
  { rewrite Hcache. apply lookup_insert_eq. }
  split; [|split].
  - intros Hle.
    destruct (getCachedValidation_hit t tok _ w1 Hin) as (w2 & Hget & Hsame & _).
    { simpl. lia. }
    exists w2. split; [exact Hget | exact Hsame].
  - intros Hlt. eexists. split.
    + apply (getCachedValidation_expired t tok _ w1 Hin). simpl. lia.
    + simpl. apply lookup_delete_eq.
  - intros w0 u' w2. apply getCachedValidation_sound.
Qed.

Lemma cache_entry_lifetime_witness :
  (exists w2, getCachedValidation 301000 "1|abc123xyz"
                (cacheValidation 1000 "1|abc123xyz" alice (world0 None)).2
              = (Returns (Some alice), w2)
              /\ tokenCache w2
                 = tokenCache (cacheValidation 1000 "1|abc123xyz" alice (world0 None)).2)
  /\ (exists w2, getCachedValidation 301001 "1|abc123xyz"
                (cacheValidation 1000 "1|abc123xyz" alice (world0 None)).2
              = (Returns None, w2)
              /\ tokenCache w2 !! getCacheKey "1|abc123xyz" = None).
Proof.
  split.
  - apply (proj1 (cache_entry_lifetime 1000 301000 "1|abc123xyz" alice (world0 None))). lia.
  - apply (proj1 (proj2 (cache_entry_lifetime 1000 301001 "1|abc123xyz" alice (world0 None)))).
    lia.
Defined.

(** C1 as stated fails at the instant [T + 300 s] itself: the entry
    stored at time 1000 is still returned at time 301000. *)
Lemma cache_hit_at_expiry_instant :
  301000 >= 1000 + 300 * 1000
  /\ (getCachedValidation 301000 "1|abc123xyz"
        (cacheValidation 1000 "1|abc123xyz" alice (world0 None)).2).1
     = Returns (Some alice).
Proof. split; [lia | vm_compute; reflexivity]. Qed.

(** ** Remote validation *)

Lemma RemoteFailure_not_accepted (o : AxiosOutcome) :
  RemoteFailure o -> accepted o = None.
Proof.
  intros H. destruct H as [err|b errs He| |b Hd|b u Hd Hi|b u i Hd Hi Ht]; simpl.
  - reflexivity.
  - rewrite He. reflexivity.
  - reflexivity.
  - destruct (errors b); [reflexivity|]. rewrite Hd. reflexivity.
  - destruct (errors b); [reflexivity|]. rewrite Hd, Hi. reflexivity.
  - destruct (errors b); [reflexivity|]. rewrite Hd, Hi. simpl. rewrite Ht. reflexivity.
Qed.

Lemma not_accepted_RemoteFailure (o : AxiosOutcome) :
  accepted o = None -> RemoteFailure o.
Proof.
  destruct o as [err|[b|]]; simpl.
  - intros _. constructor.
  - destruct (errors b) as [errs|] eqn:He.
    + intros _. eapply graphql_errors. exact He.
    + destruct (data b ≫= validateToken) as [u|] eqn:Hd.
      * destruct (id u) as [i|] eqn:Hi; simpl.
        -- destruct (id_truthy i) eqn:Ht; [discriminate|].
           intros _. eapply empty_id; eassumption.
        -- intros _. eapply missing_id; eassumption.
      * intros _. apply no_user_data. exact Hd.
  - intros _. constructor.
Qed.

(** After a cache miss, an accepted answer is stored and attached. *)
Lemma validateSanctumToken_remote_success
    (e : Env) (tok : string) (u : AuthUser) (w w0 : World) :
  getCachedValidation (now_lookup e) tok w = (Returns None, w0) ->
  accepted (axios_post e (authority_post e tok)) = Some u ->
  exists w1,
    validateSanctumToken e tok w = (Returns tt, w1)
    /\ tokenCache w1
       = <[getCacheKey tok := {| userData := u; expiresAt := now_store e + 300000 |}]>
           (tokenCache w0)
    /\ posts w1 = (posts w0 ++ [authority_post e tok])%list
    /\ auth (req w1) = Some (sanctum_context tok u)
    /\ res w1 = res w0 /\ nexts w1 = nexts w0.
Proof.
  intros Hget Hacc. unfold validateSanctumToken, bind at 1. rewrite Hget.
  fold (authority_post e tok). unfold try_catch, bind, logger, modify. simpl.
  unfold accepted in Hacc.
  destruct (axios_post e (authority_post e tok)) as [err|rd]; [discriminate|].
  destruct (rd ≫= errors) as [errs|]; [discriminate|].
  destruct ((rd ≫= data) ≫= validateToken) as [u'|]; [|discriminate].
  destruct (default false (id_truthy <$> id u')); [|discriminate].
  injection Hacc as ->.
  unfold cacheValidation, bind, modify, logger. simpl.
  eexists. split; [reflexivity|]. simpl. auto.
Qed.

(** After a cache miss, a failed remote validation throws and stores
    nothing. *)
Lemma validateSanctumToken_remote_failure
    (e : Env) (tok : string) (w w0 : World) :
  getCachedValidation (now_lookup e) tok w = (Returns None, w0) ->
  accepted (axios_post e (authority_post e tok)) = None ->
  exists w1,
    validateSanctumToken e tok w
    = (Throws (mkError "Failed to validate Sanctum token"), w1)
    /\ tokenCache w1 = tokenCache w0
    /\ posts w1 = (posts w0 ++ [authority_post e tok])%list
    /\ req w1 = req w0 /\ res w1 = res w0 /\ nexts w1 = nexts w0.
Proof.
  intros Hget Hacc. unfold validateSanctumToken, bind at 1. rewrite Hget.
  fold (authority_post e tok). unfold try_catch, bind, logger, modify. simpl.
  unfold accepted in Hacc.
  destruct (axios_post e (authority_post e tok)) as [err|rd].
  - unfold throw.
    destruct (bool_decide (error_code err = Some "ECONNREFUSED"));
      [|destruct (bool_decide (error_code err = Some "ECONNABORTED"))];
      simpl; eexists; (split; [reflexivity|]); simpl; auto.
  - destruct (rd ≫= errors) as [[|m errs]|].
    + unfold throw. simpl. eexists. split; [reflexivity|]. simpl. auto.
    + unfold throw. simpl. eexists. split; [reflexivity|]. simpl. auto.
    + destruct ((rd ≫= data) ≫= validateToken) as [u'|].
      * destruct (default false (id_truthy <$> id u')); [discriminate|].
        unfold throw. simpl. eexists. split; [reflexivity|]. simpl. auto.
      * unfold throw. simpl. eexists. split; [reflexivity|]. simpl. auto.
Qed.

(** With an unexpired entry the cached identity is attached and nothing
    else changes but the log. *)
Lemma validateSanctumToken_cached
    (e : Env) (tok : string) (c : CacheEntry) (w : World) :
  tokenCache w !! getCacheKey tok = Some c ->
  now_lookup e <= expiresAt c ->
  exists w1,
    validateSanctumToken e tok w = (Returns tt, w1)
    /\ auth (req w1) = Some (sanctum_context tok (userData c))
    /\ posts w1 = posts w
    /\ tokenCache w1 = tokenCache w
    /\ res w1 = res w /\ nexts w1 = nexts w.
Proof.
  intros Hc Hle.
  destruct (getCachedValidation_hit _ tok c w Hc Hle)
    as (w0 & Hget & Hcache & Hposts & Hreq & Hres & Hnext).
  unfold validateSanctumToken, bind at 1. rewrite Hget.
  unfold modify. eexists. split; [reflexivity|]. simpl. auto.
Qed.

(** Every lookup either hits an unexpired entry or misses, leaving the
    cache without an entry for the token. *)
Lemma getCachedValidation_cases (now : Z) (tok : string) (w : World) :
  (exists c w0, tokenCache w !! getCacheKey tok = Some c /\ now <= expiresAt c
                /\ getCachedValidation now tok w = (Returns (Some (userData c)), w0))
  \/ (exists w0, getCachedValidation now tok w = (Returns None, w0)
                 /\ tokenCache w0 = delete (getCacheKey tok) (tokenCache w)
                 /\ (forall c, tokenCache w !! getCacheKey tok = Some c -> expiresAt c < now)
                 /\ posts w0 = posts w /\ req w0 = req w
                 /\ res w0 = res w /\ nexts w0 = nexts w).
Proof.
  destruct (tokenCache w !! getCacheKey tok) as [c|] eqn:Hc.
  - destruct (Z_le_gt_dec now (expiresAt c)) as [Hle|Hgt].
    + left. destruct (getCachedValidation_hit now tok c w Hc Hle) as (w0 & Hget & _).
      exists c, w0. auto.
    + right. eexists. split; [apply (getCachedValidation_expired now tok c w Hc); lia|].
      simpl. repeat split; auto. intros c' Hc'. injection Hc' as <-. lia.
  - right. exists w. split; [apply getCachedValidation_absent; exact Hc|].
    repeat split; auto.
    + symmetry. apply delete_id. exact Hc.
    + intros c' Hc'. discriminate.
Qed.

(** A successful validation leaves an entry for the token in the cache. *)
Lemma validateSanctumToken_success_cached (e : Env) (tok : string) (w w1 : World) :
  validateSanctumToken e tok w = (Returns tt, w1) ->
  exists c, tokenCache w1 !! getCacheKey tok = Some c
            /\ auth (req w1) = Some (sanctum_context tok (userData c))
            /\ (length (posts w1) <= S (length (posts w)))%nat.
Proof.
  intros Hrun.
  destruct (getCachedValidation_cases (now_lookup e) tok w)
    as [(c & w0 & Hc & Hle & _)|(w0 & Hget & Hcache & _ & Hposts & _)].
  - destruct (validateSanctumToken_cached e tok c w Hc Hle)
      as (w1' & Hrun' & Hauth & Hp & Hcache & _).
    rewrite Hrun in Hrun'. injection Hrun' as <-.
    exists c. rewrite Hcache, Hp. auto.
  - destruct (accepted (axios_post e (authority_post e tok))) as [u|] eqn:Hacc.
    + destruct (validateSanctumToken_remote_success e tok u w w0 Hget Hacc)
        as (w1' & Hrun' & Hcache' & Hp & Hauth & _).
      rewrite Hrun in Hrun'. injection Hrun' as <-.
      eexists. split; [rewrite Hcache'; apply lookup_insert_eq|].
      split; [exact Hauth|]. rewrite Hp, length_app, Hposts. simpl. lia.
    + destruct (validateSanctumToken_remote_failure e tok w w0 Hget Hacc)
        as (w1' & Hrun' & _).
      rewrite Hrun in Hrun'. discriminate.
Qed.

(** C6: with an unexpired cache entry for the credential,
    [validateSanctumToken] attaches an authenticated context whose user
    is the identity held by the entry, with the credential and the
    [sanctum] tag, and issues no call to the authority; and after a successful validation a second
    validation of the same credential, while the entry left by the first
    is unexpired, issues none either, so that the two together issue at
    most one. *)
Theorem cached_validation_issues_no_call (tok : string) :
  (forall (e : Env) (c : CacheEntry) (w : World),
     tokenCache w !! getCacheKey tok = Some c ->
     now_lookup e <= expiresAt c ->
     exists w1,
       validateSanctumToken e tok w = (Returns tt, w1)
       /\ auth (req w1)
          = Some {| authenticated := true; user := Some (userData c);
                    token := Some tok; tokenType := Some sanctum |}
       /\ posts w1 = posts w)
  /\ (forall (e1 e2 : Env) (w w1 : World),
        validateSanctumToken e1 tok w = (Returns tt, w1) ->
        exists c,
          tokenCache w1 !! getCacheKey tok = Some c
          /\ (now_lookup e2 <= expiresAt c ->
              exists w2,
                validateSanctumToken e2 tok w1 = (Returns tt, w2)
                /\ auth (req w2)
                   = Some {| authenticated := true; user := Some (userData c);
                             token := Some tok; tokenType := Some sanctum |}
                /\ posts w2 = posts w1
                /\ (length (posts w2) <= S (length (posts w)))%nat)).
Proof.
  split.
  - intros e c w Hc Hle.
    destruct (validateSanctumToken_cached e tok c w Hc Hle) as (w1 & Hrun & Hauth & Hp & _).
    exists w1. auto.
  - intros e1 e2 w w1 Hrun1.
    destruct (validateSanctumToken_success_cached e1 tok w w1 Hrun1) as (c & Hc & _ & Hlen).
    exists c. split; [exact Hc|]. intros Hle.
    destruct (validateSanctumToken_cached e2 tok c w1 Hc Hle) as (w2 & Hrun2 & Hauth & Hp & _).
    exists w2. rewrite Hp. auto.
Qed.

(** The cache after a failed remote validation, in general: the entry of
    the credential, if one was there, has been evicted by the lookup, and
    nothing was stored. *)
Lemma validateSanctumToken_failure_cache (e : Env) (tok : string) (w : World) :
  (forall c, tokenCache w !! getCacheKey tok = Some c -> expiresAt c < now_lookup e) ->
  RemoteFailure (axios_post e (authority_post e tok)) ->
  exists w1,
    validateSanctumToken e tok w
    = (Throws (mkError "Failed to validate Sanctum token"), w1)
    /\ tokenCache w1 = delete (getCacheKey tok) (tokenCache w)
    /\ posts w1 = (posts w ++ [authority_post e tok])%list
    /\ req w1 = req w /\ res w1 = res w /\ nexts w1 = nexts w.
Proof.
  intros Hexp Hfail. apply RemoteFailure_not_accepted in Hfail.
  destruct (getCachedValidation_cases (now_lookup e) tok w)
    as [(c & w0 & Hc & Hle & _)|(w0 & Hget & Hcache & _ & Hposts & Hreq & Hres & Hnext)].
  - specialize (Hexp c Hc). lia.
  - destruct (validateSanctumToken_remote_failure e tok w w0 Hget Hfail)
      as (w1 & Hrun & Hcache' & Hp & Hreq' & Hres' & Hnext').
    exists w1. split; [exact Hrun|].
    repeat split; congruence.
Qed.

(** C7, as the code has it: when no unexpired entry serves the
    credential and the remote validation fails, [validateSanctumToken]
    throws and stores nothing: the cache is the one before less the
    expired entry of this credential, if there was one (so it is
    unchanged when there was none), every other key is untouched, and the
    next validation of the credential calls the authority again. *)
Theorem failed_validation_stores_nothing (e : Env) (tok : string) (w : World) :
  (forall c, tokenCache w !! getCacheKey tok = Some c -> expiresAt c < now_lookup e) ->
  RemoteFailure (axios_post e (authority_post e tok)) ->
  exists w1,
    validateSanctumToken e tok w
    = (Throws (mkError "Failed to validate Sanctum token"), w1)
    /\ tokenCache w1 = delete (getCacheKey tok) (tokenCache w)
    /\ (tokenCache w !! getCacheKey tok = None -> tokenCache w1 = tokenCache w)
    /\ (forall k, k <> getCacheKey tok -> tokenCache w1 !! k = tokenCache w !! k)
    /\ tokenCache w1 !! getCacheKey tok = None
    /\ (forall e', exists r w2,
          validateSanctumToken e' tok w1 = (r, w2)
          /\ posts w2 = (posts w1 ++ [authority_post e' tok])%list).
Proof.
  intros Hexp Hfail.
  destruct (validateSanctumToken_failure_cache e tok w Hexp Hfail)
    as (w1 & Hrun & Hcache & _).
  exists w1. split; [exact Hrun|]. split; [exact Hcache|].
  assert (Hnone : tokenCache w1 !! getCacheKey tok = None).
  { rewrite Hcache. apply lookup_delete_eq. }
  repeat split.
  - intros Habs. rewrite Hcache. apply delete_id. exact Habs.
  - intros k Hk. rewrite Hcache. apply lookup_delete_ne. congruence.
  - exact Hnone.
  - intros e'.
    pose proof (getCachedValidation_absent (now_lookup e') tok w1 Hnone) as Hget.
    destruct (accepted (axios_post e' (authority_post e' tok))) as [u|] eqn:Hacc.
    + destruct (validateSanctumToken_remote_success e' tok u w1 w1 Hget Hacc)
        as (w2 & Hrun2 & _ & Hp & _).
      exists (Returns tt), w2. auto.
    + destruct (validateSanctumToken_remote_failure e' tok w1 w1 Hget Hacc)
        as (w2 & Hrun2 & _ & Hp & _).
      eexists _, w2. eauto.
Qed.

Lemma cached_validation_issues_no_call_witness :
  exists w1,
    validateSanctumToken (env_up 5000) "1|abc123xyz"
      (cacheValidation 1000 "1|abc123xyz" alice (world0 None)).2
    = (Returns tt, w1)
    /\ auth (req w1)
       = Some {| authenticated := true; user := Some alice;
                 token := Some "1|abc123xyz"; tokenType := Some sanctum |}
    /\ posts w1 = [].
Proof.
  apply (proj1 (cached_validation_issues_no_call "1|abc123xyz") (env_up 5000)
           {| userData := alice; expiresAt := 301000 |}
           (cacheValidation 1000 "1|abc123xyz" alice (world0 None)).2).
  - vm_compute. reflexivity.
  - vm_compute. discriminate.
Defined.

Example two_validations_one_call :
  let r1 := validateSanctumToken (env_up 1000) "1|abc123xyz" (world0 None) in
  let r2 := validateSanctumToken (env_up 5000) "1|abc123xyz" r1.2 in
  r1.1 = Returns tt /\ r2.1 = Returns tt
  /\ posts r2.2 = [authority_post (env_up 1000) "1|abc123xyz"].
Proof. vm_compute. auto. Qed.

Lemma failed_validation_stores_nothing_witness :
  exists w1,
    validateSanctumToken (env_down 1000) "1|abc123xyz" (world0 None)
    = (Throws (mkError "Failed to validate Sanctum token"), w1)
    /\ tokenCache w1 = ∅.
Proof.
  destruct (failed_validation_stores_nothing (env_down 1000) "1|abc123xyz" (world0 None))
    as (w1 & Hrun & _ & Hsame & _).
  - intros c Hc. vm_compute in Hc. discriminate.
  - vm_compute. constructor.
  - exists w1. split; [exact Hrun|]. apply Hsame. vm_compute. reflexivity.
Defined.

(** C7 as stated fails when the cache still holds the expired entry of
    the credential: the failed validation evicts it, so the cache is not
    the one before. *)
Lemma failed_validation_evicts_expired_entry :
  let w := (cacheValidation 1000 "1|abc123xyz" alice (world0 None)).2 in
  let r := validateSanctumToken (env_down 400000) "1|abc123xyz" w in
  RemoteFailure (axios_post (env_down 400000) (authority_post (env_down 400000) "1|abc123xyz"))
  /\ r.1 = Throws (mkError "Failed to validate Sanctum token")
  /\ tokenCache r.2 <> tokenCache w.
Proof.
  cbv zeta. split; [vm_compute; constructor|]. split; [vm_compute; reflexivity|].
  intros H.
  apply (f_equal (fun m => m !! getCacheKey "1|abc123xyz")) in H.
  vm_compute in H. discriminate.
Qed.

(** ** The authentication gate *)

(** [extractToken] reads the header only; at most it logs one line, and
    then it returns [null]. *)
Lemma extractToken_cases (w : World) :
  (exists o, extractToken w = (Returns o, w))
  \/ (exists l, extractToken w = (Returns None, add_log l w)).
Proof.
  unfold extractToken. run_js.
  destruct (or_string (authorization (req w)) None) as [h|]; [|left; eauto].
  destruct (Js.split " " h) as [|p0 [|p1 [|p2 ps]]]; try (right; eauto; fail).
  destruct (String.eqb p0 "Bearer"); [left|right]; eauto.
Qed.

(** The header alone decides what [extractToken] returns. *)
Lemma extractToken_header (w w' : World) :
  authorization (req w') = authorization (req w) ->
  (extractToken w').1 = (extractToken w).1.
Proof.
  intros H. unfold extractToken. run_js. rewrite H.
  destruct (or_string (authorization (req w)) None) as [h|]; [|reflexivity].
  destruct (Js.split " " h) as [|p0 [|p1 [|p2 ps]]]; try reflexivity.
  destruct (String.eqb p0 "Bearer"); reflexivity.
Qed.

(** [validateJWTToken] attaches an authenticated context when the
    verification succeeds and throws a plain [Error] otherwise; it never
    touches the cache, the response or the authority. *)
Lemma validateJWTToken_cases (e : Env) (tok : string) (w : World) :
  (exists d w1,
     jwt_verify e tok (jwt_secret e) = Verified d
     /\ validateJWTToken e tok w = (Returns tt, w1)
     /\ auth (req w1) = Some (jwt_context tok d)
     /\ authorization (req w1) = authorization (req w)
     /\ tokenCache w1 = tokenCache w /\ posts w1 = posts w
     /\ res w1 = res w /\ nexts w1 = nexts w)
  \/ (exists err m w1,
        jwt_verify e tok (jwt_secret e) = VerifyThrows err
        /\ validateJWTToken e tok w = (Throws (mkError m), w1)
        /\ req w1 = req w
        /\ tokenCache w1 = tokenCache w /\ posts w1 = posts w
        /\ res w1 = res w /\ nexts w1 = nexts w).
Proof.
  unfold validateJWTToken, getJWTSecret. fold (jwt_secret e). run_js.
  destruct (String.eqb (jwt_secret e) "change-me-in-production"
            && bool_decide (getenv e "NODE_ENV" = Some "production")); simpl;
    destruct (jwt_verify e tok (jwt_secret e)) as [d|err]; simpl.
  1,3: left; eexists _, _; split; [reflexivity|]; split; [reflexivity|]; simpl; auto 10.
  all: right; destruct (cls err); simpl;
    eexists _, _, _; (split; [reflexivity|]); (split; [reflexivity|]); simpl; auto 10.
Qed.

(** The routed validator either attaches an authenticated context or
    throws a plain [Error]; it throws exactly when the validation fails;
    it leaves the response and the header alone and never calls
    [next]. *)
Lemma routed_cases (e : Env) (tok : string) (w : World) :
  (exists a w1,
     routed e tok w = (Returns tt, w1)
     /\ ~ validation_fails e tok w
     /\ auth (req w1) = Some a /\ authenticated a = true
     /\ res w1 = res w /\ nexts w1 = nexts w)
  \/ (exists m w1,
        routed e tok w = (Throws (mkError m), w1)
        /\ validation_fails e tok w
        /\ res w1 = res w /\ nexts w1 = nexts w).
Proof.
  unfold routed, validation_fails. destruct (detectTokenType tok).
  - destruct (getCachedValidation_cases (now_lookup e) tok w)
      as [(c & w0 & Hc & Hle & _)|(w0 & Hget & Hcache & Hexp & Hposts & Hreq & Hres & Hnext)].
    + left. destruct (validateSanctumToken_cached e tok c w Hc Hle)
        as (w1 & Hrun & Hauth & _ & _ & Hres & Hnext).
      exists (sanctum_context tok (userData c)), w1.
      repeat split; auto. intros [Hexp _]. specialize (Hexp c Hc). lia.
    + destruct (accepted (axios_post e (authority_post e tok))) as [u|] eqn:Hacc.
      * left. destruct (validateSanctumToken_remote_success e tok u w w0 Hget Hacc)
          as (w1 & Hrun & _ & _ & Hauth & Hres' & Hnext').
        exists (sanctum_context tok u), w1. repeat split; auto; try congruence.
        intros [_ Hfail]. apply RemoteFailure_not_accepted in Hfail. congruence.
      * right. destruct (validateSanctumToken_remote_failure e tok w w0 Hget Hacc)
          as (w1 & Hrun & _ & _ & _ & Hres' & Hnext').
        eexists _, w1. split; [exact Hrun|].
        repeat split; auto; try congruence.
        apply not_accepted_RemoteFailure. exact Hacc.
  - destruct (validateJWTToken_cases e tok w)
      as [(d & w1 & Hv & Hrun & Hauth & _ & _ & _ & Hres & Hnext)
         |(err & m & w1 & Hv & Hrun & _ & _ & _ & Hres & Hnext)].
    + left. exists (jwt_context tok d), w1. repeat split; auto.
      intros [err Herr]. congruence.
    + right. exists m, w1. repeat split; eauto.
Qed.

(** [authenticateRequest], one step at a time. *)
Lemma authenticateRequest_steps (e : Env) (w : World) :
  authenticateRequest e w =
  match extractToken (set_auth anonymous w) with
  | (Returns o, w1) =>
      match or_string o None with
      | None => (Returns tt, add_next (add_log log_no_token w1))
      | Some tok =>
          match routed e tok (add_log (log_processing tok) w1) with
          | (Returns _, w2) => (Returns tt, add_next (add_log (log_success w2) w2))
          | (Throws err, w2) =>
              (Returns tt, add_next (set_auth anonymous (add_log (log_failed err) w2)))
          end
      end
  | (Throws err, w1) => (Throws err, w1)
  end.
Proof.
  unfold authenticateRequest. run_js.
  destruct (extractToken (set_auth anonymous w)) as [[o|err] w1]; [|reflexivity].
  destruct (or_string o None) as [tok|]; [|reflexivity].
  unfold routed, log_processing.
  destruct (detectTokenType tok); simpl.
  - destruct (validateSanctumToken e tok _) as [[[]|err] w2]; reflexivity.
  - destruct (validateJWTToken e tok _) as [[[]|err] w2]; reflexivity.
Qed.

Lemma or_string_Some (o : option string) (t : string) :
  or_string o None = Some t <-> o = Some t /\ t <> "".
Proof.
  unfold or_string. destruct o as [[|a s]|]; simpl; split.
  - discriminate.
  - intros [H Hne]. injection H as <-. contradiction.
  - intros H. injection H as <-. split; [reflexivity | discriminate].
  - intros [H _]. exact H.
  - discriminate.
  - intros [H _]. discriminate.
Qed.

Lemma validation_fails_cache (e : Env) (tok : string) (w w' : World) :
  tokenCache w' = tokenCache w ->
  validation_fails e tok w' <-> validation_fails e tok w.
Proof.
  intros H. unfold validation_fails. rewrite H. reflexivity.
Qed.

(** C2: [authenticateRequest] always returns normally, having attached an
    auth context and called [next] once, and never touches the response.
    A context that is not authenticated carries nothing: no user, no
    token, no scheme.  When the extracted credential fails validation,
    the context attached has [authenticated] false and nothing else, and
    the failure appears as one warning in the log. *)
Theorem authenticateRequest_never_fails (e : Env) (w : World) :
  exists w',
    authenticateRequest e w = (Returns tt, w')
    /\ nexts w' = S (nexts w)
    /\ res w' = res w
    /\ (exists a,
          auth (req w') = Some a
          /\ (authenticated a = false ->
              a = {| authenticated := false; user := None; token := None; tokenType := None |}))
    /\ (forall tok,
          (extractToken w).1 = Returns (Some tok) -> tok <> "" ->
          validation_fails e tok w ->
          auth (req w')
          = Some {| authenticated := false; user := None; token := None; tokenType := None |}
          /\ exists l m,
               logged w'
               = (l ++ [{| level := LWarn;
                           message := "Authentication failed: Error: " +:+ m |}])%list).
Proof.
  rewrite authenticateRequest_steps.
  pose proof (extractToken_header w (set_auth anonymous w) eq_refl) as Hhdr.
  destruct (extractToken_cases (set_auth anonymous w)) as [(o & Hx)|(l & Hx)];
    rewrite Hx in *; simpl in Hhdr.
  - destruct (or_string o None) as [tok|] eqn:Ho.
    + apply or_string_Some in Ho as [-> Hne].
      destruct (routed_cases e tok (add_log (log_processing tok) (set_auth anonymous w)))
        as [(a & w2 & Hrun & Hok & Hauth & Htrue & Hres & Hnext)
           |(m & w2 & Hrun & Hfail & Hres & Hnext)];
        rewrite Hrun; simpl in Hres, Hnext; eexists; (split; [reflexivity|]); simpl.
      * split; [congruence|]. split; [exact Hres|]. split.
        -- exists a. split; [exact Hauth|]. congruence.
        -- intros tok' Htok' _ Hfail. exfalso. apply Hok.
           rewrite <- Hhdr in Htok'. injection Htok' as ->.
           eapply validation_fails_cache; [|exact Hfail]. reflexivity.
      * split; [congruence|]. split; [exact Hres|]. split.
        -- exists anonymous. auto.
        -- intros _ _ _ _. split; [reflexivity|]. exists (logged w2), m. reflexivity.
    + eexists. split; [reflexivity|]. simpl.
      split; [reflexivity|]. split; [reflexivity|]. split.
      * exists anonymous. auto.
      * intros tok Htok Hne _. exfalso.
        rewrite <- Hhdr in Htok. injection Htok as ->.
        assert (Hs : or_string (Some tok) None = Some tok)
          by (apply or_string_Some; auto).
        congruence.
  - eexists. split; [reflexivity|]. simpl.
    split; [reflexivity|]. split; [reflexivity|]. split.
    + exists anonymous. auto.
    + intros tok Htok _ _. rewrite <- Hhdr in Htok. discriminate.
Qed.

Lemma authenticateRequest_never_fails_witness :
  exists w',
    authenticateRequest (env_down 1000) (world0 (Some "Bearer 1|abc123xyz"))
    = (Returns tt, w')
    /\ auth (req w')
       = Some {| authenticated := false; user := None; token := None; tokenType := None |}
    /\ exists l m,
         logged w'
         = (l ++ [{| level := LWarn;
                     message := "Authentication failed: Error: " +:+ m |}])%list.
Proof.
  destruct (authenticateRequest_never_fails (env_down 1000)
              (world0 (Some "Bearer 1|abc123xyz")))
    as (w' & Hrun & _ & _ & _ & Hfail).
  exists w'. split; [exact Hrun|].
  apply (Hfail "1|abc123xyz").
  - vm_compute. reflexivity.
  - discriminate.
  - split.
    + intros c Hc. vm_compute in Hc. discriminate.
    + vm_compute. constructor.
Defined.

Example expired_jwt_is_anonymous :
  let e := {| getenv := fun _ => None; now_lookup := 0; now_store := 0;
              axios_post := fun _ => Resolved None;
              jwt_verify := fun _ _ =>
                VerifyThrows {| cls := TokenExpiredError; msg := "jwt expired" |} |} in
  let r := authenticateRequest e (world0 (Some "Bearer eyJhbGciOi.eyJzdWIi.c2ln")) in
  r.1 = Returns tt
  /\ auth (req r.2) = Some anonymous
  /\ res r.2 = blank_response
  /\ nexts r.2 = 1%nat
  /\ logged r.2
     = [ {| level := LDebug; message := "Processing jwt token: eyJhbGciOi.eyJzdWIi...." |};
         {| level := LWarn; message := "JWT token expired: jwt expired" |};
         {| level := LWarn; message := "Authentication failed: Error: Token expired" |} ].
Proof. vm_compute. auto 10. Qed.

(** ** Absent and malformed headers *)

Lemma extractToken_malformed (w : World) :
  malformed_header (authorization (req w)) ->
  extractToken w = (Returns None, w)
  \/ exists l, level l = LDebug /\ extractToken w = (Returns None, add_log l w).
Proof.
  unfold malformed_header, extractToken. run_js.
  destruct (authorization (req w)) as [s|]; [|left; reflexivity].
  unfold or_string. destruct (Js.truthy s); [|left; reflexivity].
  destruct (Js.split " " s) as [|p0 [|p1 [|p2 ps]]]; simpl;
    try (intros _; right; eexists; split; [|reflexivity]; reflexivity).
  intros [Hlen|Hhead]; [contradiction|].
  destruct (String.eqb_spec p0 "Bearer") as [->|_]; [contradiction|].
  right. eexists. split; [|reflexivity]. reflexivity.
Qed.

(** C5: for a request whose [Authorization] header is absent or
    malformed, [authenticateRequest] attaches a context with
    [authenticated] false and nothing else and calls [next], returning
    normally.  The outcome is the same whatever
    the authority, the verifier and the clock would answer; no call goes
    out, the cache and the response are left as they were, and only
    debug lines are logged. *)
Theorem malformed_header_is_anonymous (w : World) :
  malformed_header (authorization (req w)) ->
  exists w',
    (forall e, authenticateRequest e w = (Returns tt, w'))
    /\ auth (req w')
       = Some {| authenticated := false; user := None; token := None; tokenType := None |}
    /\ nexts w' = S (nexts w)
    /\ res w' = res w
    /\ posts w' = posts w
    /\ tokenCache w' = tokenCache w
    /\ exists l, logged w' = (logged w ++ l)%list
                 /\ Forall (fun x => level x = LDebug) l
                 /\ last l = Some {| level := LDebug;
                                     message := "No token provided in request" |}.
Proof.
  intros Hbad.
  destruct (extractToken_malformed (set_auth anonymous w) Hbad) as [Hx|(l & Hl & Hx)].
  - exists (add_next (add_log log_no_token (set_auth anonymous w))). split.
    + intros e. rewrite authenticateRequest_steps, Hx. reflexivity.
    + simpl. repeat split. exists [log_no_token]. repeat split.
      repeat constructor.
  - exists (add_next (add_log log_no_token (add_log l (set_auth anonymous w)))). split.
    + intros e. rewrite authenticateRequest_steps, Hx. reflexivity.
    + simpl. repeat split. exists [l; log_no_token]. repeat split.
      * rewrite <- app_assoc. reflexivity.
      * repeat constructor. exact Hl.
Qed.

Lemma malformed_header_is_anonymous_witness :
  exists w',
    (forall e, authenticateRequest e (world0 (Some "Token xyz")) = (Returns tt, w'))
    /\ auth (req w')
       = Some {| authenticated := false; user := None; token := None; tokenType := None |}
    /\ nexts w' = 1%nat
    /\ posts w' = [].
Proof.
  destruct (malformed_header_is_anonymous (world0 (Some "Token xyz")))
    as (w' & Hrun & Hauth & Hnext & _ & Hposts & _).
  - right. vm_compute. discriminate.
  - exists w'. auto.
Defined.

Example missing_header_is_anonymous :
  let r := authenticateRequest (env_up 0) (world0 None) in
  r.1 = Returns tt /\ auth (req r.2) = Some anonymous /\ nexts r.2 = 1%nat
  /\ logged r.2 = [log_no_token].
Proof. vm_compute. auto. Qed.

(** ** Role checks *)

Lemma includes_In (l : list string) (x : string) :
  Js.includes l x = true <-> In x l.
Proof.
  unfold Js.includes. rewrite existsb_exists. split.
  - intros (y & Hy & Heq). apply String.eqb_eq in Heq. subst. exact Hy.
  - intros H. exists x. split; [exact H | apply String.eqb_refl].
Qed.

(** What [requireRole] does, case by case: 401 without an authenticated
    context; otherwise the single role [role || roles?.[0]] decides. *)
Lemma requireRole_cases (allowedRoles : list string) (w : World) :
  exists w', requireRole allowedRoles w = (Returns tt, w')
  /\ (if negb (is_authenticated w) then rejects 401 w w'
      else
        match or_string (or_string ((auth (req w) ≫= user) ≫= role)
                                   (((auth (req w) ≫= user) ≫= roles) ≫= head)) None with
        | Some r => if Js.includes allowedRoles r then passes w w' else rejects 403 w w'
        | None => rejects 403 w w'
        end).
Proof.
  unfold requireRole. run_js.
  destruct (is_authenticated w); simpl.
  - destruct (or_string _ None) as [r|].
    + destruct (Js.includes allowedRoles r); eexists; (split; [reflexivity|]);
        unfold passes, rejects; simpl; auto.
    + eexists. split; [reflexivity|]. unfold rejects. simpl. auto.
  - eexists. split; [reflexivity|]. unfold rejects. simpl. auto.
Qed.

(** X18: whenever [requireRole] lets a request through, the request is
    authenticated and the role set meets the allowed roles. *)
Lemma requireRole_pass_sound (allowedRoles : list string) (w w' : World) (u : AuthUser) :
  auth (req w) ≫= user = Some u ->
  requireRole allowedRoles w = (Returns tt, w') ->
  passes w w' ->
  is_authenticated w = true /\ intersects (role_set u) allowedRoles.
Proof.
  intros Hu Hrun [Hnext _].
  destruct (requireRole_cases allowedRoles w) as (w1 & Hrun1 & Hcase).
  rewrite Hrun in Hrun1. injection Hrun1 as <-.
  destruct (is_authenticated w); simpl in Hcase.
  2: { destruct Hcase as [Hn _]. lia. }
  split; [reflexivity|].
  rewrite Hu in Hcase. simpl in Hcase.
  destruct (or_string (or_string (role u) (roles u ≫= head)) None) as [r|] eqn:Hr.
  2: { destruct Hcase as [Hn _]. lia. }
  destruct (Js.includes allowedRoles r) eqn:Hinc.
  2: { destruct Hcase as [Hn _]. lia. }
  apply includes_In in Hinc. apply or_string_Some in Hr as [Hr _].
  exists r. split; [|exact Hinc]. unfold role_set. apply in_or_app.
  unfold or_string in Hr. destruct (role u) as [ro|].
  - destruct (Js.truthy ro).
    + injection Hr as ->. left. simpl. auto.
    + right. destruct (roles u) as [[|x l]|]; try discriminate.
      simpl in Hr. injection Hr as ->. simpl. auto.
  - right. destruct (roles u) as [[|x l]|]; try discriminate.
    simpl in Hr. injection Hr as ->. simpl. auto.
Qed.

(** C3 at the failing input: the role set of [bob] meets the allowed
    roles, yet [requireRole(['ADMIN'])] answers 403 and does not call
    [next]; the role check of the earlier middleware lets the same
    request through. *)
Theorem requireRole_ignores_secondary_roles :
  let r := requireRole ["ADMIN"] (world_of bob) in
  is_authenticated (world_of bob) = true
  /\ intersects (role_set bob) ["ADMIN"]
  /\ r.1 = Returns tt
  /\ nexts r.2 = 0%nat
  /\ res r.2 = {| status := Some 403;
                  body := Some ("Forbidden", "Insufficient permissions") |}
  /\ nexts (Legacy.requireRole ["ADMIN"] (world_of bob)).2 = 1%nat.
Proof.
  cbv zeta. split; [reflexivity|]. split.
  - exists "ADMIN". simpl. auto.
  - vm_compute. auto.
Qed.

(** X19: the role check of the earlier middleware does compare sets: it lets
    an authenticated request through exactly when [roles] meets the
    allowed roles. *)
Lemma legacy_requireRole_intersects (allowedRoles : list string) (w : World) :
  is_authenticated w = true ->
  exists w', Legacy.requireRole allowedRoles w = (Returns tt, w')
  /\ (passes w w' <->
      intersects (default [] ((auth (req w) ≫= user) ≫= roles)) allowedRoles).
Proof.
  intros Hauth. unfold Legacy.requireRole. run_js. rewrite Hauth. simpl.
  destruct (existsb _ allowedRoles) eqn:Hex; simpl.
  - eexists. split; [reflexivity|]. unfold passes. simpl. split; [intros _|auto].
    apply existsb_exists in Hex as (r & Hr & Hinc). apply includes_In in Hinc.
    exists r. auto.
  - eexists. split; [reflexivity|]. unfold passes. simpl. split; [intros [Hn _]; lia|].
    intros (r & Hr1 & Hr2). exfalso.
    assert (existsb (fun role =>
              Js.includes (default [] ((auth (req w) ≫= user) ≫= roles)) role)
              allowedRoles = true) as Hex'.
    { apply existsb_exists. exists r. split; [exact Hr2|]. apply includes_In. exact Hr1. }
    congruence.
Qed.

(** ** Readiness *)

(** Once the start-up promise has settled, no event changes the state. *)
Lemma step_after_start (s : Server.Readiness) (ev : Server.Event) :
  Server.serverStarted s = true -> Server.step s ev = s.
Proof.
  intros Hs. destruct ev; simpl; try reflexivity; rewrite Hs; reflexivity.
Qed.

Lemma run_after_start (s : Server.Readiness) (evs : list Server.Event) :
  Server.serverStarted s = true -> Server.run s evs = s.
Proof.
  intros Hs. unfold Server.run. induction evs as [|ev evs IH]; [reflexivity|].
  simpl. rewrite (step_after_start s ev Hs). exact IH.
Qed.

(** C4 on the code: once [apolloServer.start()] has rejected, no later
    event changes the flags: [schemaReady] stays [false] and the
    [/graphql] routes stay unregistered, however many schema
    compositions succeed afterwards. *)
Theorem schemaReady_never_recovers (errorMsg : string) (evs : list Server.Event) :
  let s := Server.run (Server.step Server.initial (Server.StartRejected errorMsg)) evs in
  Server.schemaReady s = false
  /\ Server.graphql_routes s = false
  /\ Server.r_readyForRequests (Server.health_detailed s) = false.
Proof.
  cbv zeta. rewrite run_after_start by reflexivity. simpl. auto.
Qed.

Example degraded_stays_degraded :
  Server.health_detailed
    (Server.run Server.initial
       [Server.StartRejected "Couldn't load service definitions for despacho";
        Server.SchemaComposed; Server.HealthDetailed; Server.SchemaComposed])
  = {| Server.r_schemaReady := false; Server.r_serverStarted := true;
       Server.r_readyForRequests := false |}.
Proof. reflexivity. Qed.

Example clean_start_is_ready :
  Server.health_detailed (Server.run Server.initial [Server.StartResolved])
  = {| Server.r_schemaReady := true; Server.r_serverStarted := true;
       Server.r_readyForRequests := true |}.
Proof. reflexivity. Qed.

(** ** The service checker *)

Import Gateway.

Lemma set_add_In (x n : string) (s : JsSet) :
  In n (set_add x s) <-> n = x \/ In n s.
Proof.
  unfold set_add, set_has. destruct (Js.includes s x) eqn:Hx.
  - apply includes_In in Hx. split; [auto|]. intros [->|H]; auto.
  - rewrite in_app_iff. simpl. split; intros [H|H]; auto.
    destruct H as [<-|[]]. auto.
Qed.

Lemma set_delete_In (x n : string) (s : JsSet) :
  In n (set_delete x s) <-> n <> x /\ In n s.
Proof.
  unfold set_delete. rewrite filter_In. rewrite negb_true_iff.
  split; intros [H1 H2]; split; auto.
  - intros ->. rewrite String.eqb_refl in H2. discriminate.
  - apply String.eqb_neq. exact H1.
Qed.

(** One probe, seen from the two sets of the object. *)
Lemma probe_available (fetch : string -> FetchOutcome) (st : Loop) (config : SubgraphConfig)
    (n : string) :
  In n (this_availableServices (this (probe fetch st config)))
  <-> In n (this_availableServices (this st))
      \/ (n = name config /\ reachable fetch config = true).
Proof.
  unfold probe, reachable.
  destruct (fetch _) as [[|]|]; simpl.
  - rewrite set_add_In. tauto.
  - split; [auto|]. intros [H|[_ H]]; [exact H|discriminate].
  - split; [auto|]. intros [H|[_ H]]; [exact H|discriminate].
Qed.

Lemma probe_unavailable (fetch : string -> FetchOutcome) (st : Loop) (config : SubgraphConfig)
    (n : string) :
  In n (this_unavailableServices (this (probe fetch st config)))
  <-> if reachable fetch config
      then n <> name config /\ In n (this_unavailableServices (this st))
      else n = name config \/ In n (this_unavailableServices (this st)).
Proof.
  unfold probe, reachable.
  destruct (fetch _) as [[|]|]; simpl; try apply set_add_In.
  unfold set_has.
  destruct (Js.includes (this_unavailableServices (this st)) (name config)) eqn:Hin.
  - apply set_delete_In.
  - split; [|tauto]. intros H. split; [|exact H]. intros ->.
    apply includes_In in H. congruence.
Qed.

(** One probe, seen from the two local arrays. *)
Lemma probe_arrays (fetch : string -> FetchOutcome) (st : Loop) (config : SubgraphConfig) :
  available (probe fetch st config)
  = (available st ++ (if reachable fetch config then [name config] else []))%list
  /\ unavailable (probe fetch st config)
     = (unavailable st ++ (if reachable fetch config then [] else [name config]))%list.
Proof.
  unfold probe, reachable.
  destruct (fetch _) as [[|]|]; simpl; rewrite ?app_nil_r; auto.
Qed.

(** The arrays after the whole loop. *)
Lemma loop_arrays (fetch : string -> FetchOutcome) (cfg : list SubgraphConfig) (st : Loop) :
  available (fold_left (probe fetch) cfg st)
  = (available st ++ map name (List.filter (reachable fetch) cfg))%list
  /\ unavailable (fold_left (probe fetch) cfg st)
     = (unavailable st
        ++ map name (List.filter (fun c => negb (reachable fetch c)) cfg))%list.
Proof.
  revert st. induction cfg as [|c cfg IH]; intros st; simpl.
  - rewrite !app_nil_r. auto.
  - destruct (IH (probe fetch st c)) as [Ha Hu]. rewrite Ha, Hu.
    destruct (probe_arrays fetch st c) as [-> ->].
    destruct (reachable fetch c); simpl; rewrite <- !app_assoc; simpl;
      rewrite ?app_nil_r; auto.
Qed.

Lemma filter_lengths {A} (f : A -> bool) (l : list A) :
  (length (List.filter f l) + length (List.filter (fun x => negb (f x)) l)
   = length l)%nat.
Proof.
  induction l as [|x l IH]; simpl; [reflexivity|].
  destruct (f x); simpl; lia.
Qed.

Lemma name_in_filter (f : SubgraphConfig -> bool) (cfg : list SubgraphConfig) (n : string) :
  In n (map name (List.filter f cfg)) <-> exists c, In c cfg /\ name c = n /\ f c = true.
Proof.
  rewrite in_map_iff. split.
  - intros (c & Hn & Hc). apply filter_In in Hc as [Hc Hf]. eauto.
  - intros (c & Hc & Hn & Hf). exists c. split; [exact Hn|]. apply filter_In. auto.
Qed.

(** With distinct names, a name determines its entry. *)
Lemma NoDup_name_inj (cfg : list SubgraphConfig) (c c' : SubgraphConfig) :
  List.NoDup (map name cfg) -> In c cfg -> In c' cfg -> name c = name c' -> c = c'.
Proof.
  induction cfg as [|x cfg IH]; simpl; [tauto|].
  intros Hnd Hc Hc' Hn. inversion Hnd as [|? ? Hx Hnd']; subst.
  destruct Hc as [->|Hc], Hc' as [->|Hc']; auto.
  - exfalso. apply Hx. rewrite Hn. apply in_map. exact Hc'.
  - exfalso. apply Hx. rewrite <- Hn. apply in_map. exact Hc.
Qed.

(** One [checkServiceHealth] over any list of [N] endpoints of which [M]
    probe as reachable: the names of the [M] reachable ones, the names of
    the [N - M] others, and [N]; with distinct names, every name is in
    exactly one of the two lists. *)
Lemma checkServiceHealth_any
    (cfg : list SubgraphConfig) (fetch : string -> FetchOutcome) (c : Checker) :
  let M := length (List.filter (reachable fetch) cfg) in
  let N := length cfg in
  let r := (checkServiceHealth cfg fetch c).1 in
  availableServices r = map name (List.filter (reachable fetch) cfg)
  /\ unavailableServices r = map name (List.filter (fun x => negb (reachable fetch x)) cfg)
  /\ length (availableServices r) = M
  /\ length (unavailableServices r) = (N - M)%nat
  /\ totalConfigured r = N
  /\ (List.NoDup (map name cfg) ->
      forall x, In x cfg ->
        if reachable fetch x
        then In (name x) (availableServices r) /\ ~ In (name x) (unavailableServices r)
        else ~ In (name x) (availableServices r) /\ In (name x) (unavailableServices r)).
Proof.
  cbv zeta. unfold checkServiceHealth. cbn [fst availableServices unavailableServices
                                            totalConfigured].
  destruct (loop_arrays fetch cfg {| available := []; unavailable := []; this := c |})
    as [Ha Hu].
  simpl in Ha, Hu. rewrite Ha, Hu.
  pose proof (filter_lengths (reachable fetch) cfg) as Hlen.
  repeat split.
  - apply length_map.
  - rewrite length_map. lia.
  - intros Hnd x Hx. destruct (reachable fetch x) eqn:Hr; split.
    + apply name_in_filter. eauto.
    + intros Hin. apply name_in_filter in Hin as (x' & Hx' & Hn & Hr').
      rewrite (NoDup_name_inj cfg x' x Hnd Hx' Hx Hn), Hr in Hr'. discriminate.
    + intros Hin. apply name_in_filter in Hin as (x' & Hx' & Hn & Hr').
      rewrite (NoDup_name_inj cfg x' x Hnd Hx' Hx Hn), Hr in Hr'. discriminate.
    + apply name_in_filter. exists x. rewrite Hr. auto.
Qed.

(** The configuration the gateway builds has distinct names, whatever
    the environment enables. *)
Lemma SUBGRAPH_CONFIG_NoDup (env : ProcessEnv) :
  List.NoDup (map name (SUBGRAPH_CONFIG env)).
Proof.
  unfold SUBGRAPH_CONFIG, entry.
  destruct (Js.includes (enabledServices env) "autentificacion");
    destruct (Js.includes (enabledServices env) "despacho");
    destruct (Js.includes (enabledServices env) "recepcion");
    destruct (Js.includes (enabledServices env) "websocket");
    destruct (Js.includes (enabledServices env) "decision");
    destruct (Js.includes (enabledServices env) "ml_despacho");
    simpl; repeat constructor; simpl; intuition discriminate.
Qed.

Example SUBGRAPH_CONFIG_two :
  map name (SUBGRAPH_CONFIG env_two) = ["autentificacion"; "despacho"].
Proof. vm_compute. reflexivity. Qed.

Example checkServiceHealth_two :
  (checkServiceHealth (SUBGRAPH_CONFIG env_two) fetch_despacho_up
     (new_checker (SUBGRAPH_CONFIG env_two))).1
  = {| availableServices := ["despacho"];
       unavailableServices := ["autentificacion"];
       totalConfigured := 2 |}.
Proof. vm_compute. reflexivity. Qed.

(** C9: for every configuration the gateway can build, one
    [checkServiceHealth] over its [N] endpoints of which [M] probe as
    reachable returns the names of the [M] reachable ones as
    [availableServices], the names of the [N - M] others as
    [unavailableServices], each configured name in exactly one of the two
    lists, and [N] as [totalConfigured]. *)
Theorem checkServiceHealth_partitions
    (env : ProcessEnv) (fetch : string -> FetchOutcome) (c : Checker) :
  let cfg := SUBGRAPH_CONFIG env in
  let M := length (List.filter (reachable fetch) cfg) in
  let N := length cfg in
  let r := (checkServiceHealth cfg fetch c).1 in
  availableServices r = map name (List.filter (reachable fetch) cfg)
  /\ unavailableServices r = map name (List.filter (fun x => negb (reachable fetch x)) cfg)
  /\ length (availableServices r) = M
  /\ length (unavailableServices r) = (N - M)%nat
  /\ totalConfigured r = N
  /\ (forall x, In x cfg ->
        if reachable fetch x
        then In (name x) (availableServices r) /\ ~ In (name x) (unavailableServices r)
        else ~ In (name x) (availableServices r) /\ In (name x) (unavailableServices r)).
Proof.
  cbv zeta.
  destruct (checkServiceHealth_any (SUBGRAPH_CONFIG env) fetch c)
    as (Ha & Hu & HM & HN & Ht & Hone).
  repeat (split; [assumption|]).
  apply Hone. apply SUBGRAPH_CONFIG_NoDup.
Qed.

Lemma checkServiceHealth_partitions_witness :
  In "despacho"
     (availableServices
        (checkServiceHealth (SUBGRAPH_CONFIG env_two) fetch_despacho_up
           (new_checker (SUBGRAPH_CONFIG env_two))).1)
  /\ ~ In "despacho"
       (unavailableServices
          (checkServiceHealth (SUBGRAPH_CONFIG env_two) fetch_despacho_up
             (new_checker (SUBGRAPH_CONFIG env_two))).1).
Proof.
  destruct (checkServiceHealth_partitions env_two fetch_despacho_up
              (new_checker (SUBGRAPH_CONFIG env_two)))
    as (_ & _ & _ & _ & _ & Hone).
  apply (Hone despacho).
  vm_compute. auto.
Defined.

(** The sets of the object after the whole loop. *)
Lemma loop_available (fetch : string -> FetchOutcome) (cfg : list SubgraphConfig)
    (st : Loop) (n : string) :
  In n (this_availableServices (this (fold_left (probe fetch) cfg st)))
  <-> In n (this_availableServices (this st))
      \/ exists x, In x cfg /\ name x = n /\ reachable fetch x = true.
Proof.
  revert st. induction cfg as [|c cfg IH]; intros st; simpl.
  - split; [auto|]. intros [H|(x & [] & _)]. exact H.
  - rewrite IH, probe_available. split.
    + intros [[H|[-> Hr]]|(x & Hx & Hn & Hr)]; eauto 6.
    + intros [H|(x & [<-|Hx] & Hn & Hr)]; eauto 6.
Qed.

Lemma loop_unavailable (fetch : string -> FetchOutcome) (cfg : list SubgraphConfig)
    (st : Loop) (n : string) :
  List.NoDup (map name cfg) ->
  In n (this_unavailableServices (this (fold_left (probe fetch) cfg st)))
  <-> (exists x, In x cfg /\ name x = n /\ reachable fetch x = false)
      \/ (In n (this_unavailableServices (this st)) /\ ~ In n (map name cfg)).
Proof.
  revert st. induction cfg as [|c cfg IH]; intros st Hnd; simpl.
  - split; [auto|]. intros [(x & [] & _)|[H _]]. exact H.
  - inversion Hnd as [|? ? Hc Hnd']; subst.
    rewrite (IH _ Hnd'), probe_unavailable.
    destruct (reachable fetch c) eqn:Hr; split.
    + intros [(x & Hx & Hn & Hrx)|[[Hne Hin] Hnot]]; [eauto 6|].
      right. split; [exact Hin|]. intros [Heq|Hin']; [congruence|contradiction].
    + intros [(x & [<-|Hx] & Hn & Hrx)|[Hin Hnot]]; [congruence|eauto 6|].
      right. split; [|tauto]. split; [|exact Hin]. intros ->. tauto.
    + intros [(x & Hx & Hn & Hrx)|[[->|Hin] Hnot]]; [eauto 6|eauto 6|].
      destruct (string_dec n (name c)) as [->|Hne]; [eauto 6|].
      right. split; [exact Hin|]. intros [Heq|Hin']; [congruence|contradiction].
    + intros [(x & [<-|Hx] & Hn & Hrx)|[Hin Hnot]].
      * right. split; [auto|]. rewrite <- Hn. exact Hc.
      * eauto 6.
      * right. split; [auto|]. tauto.
Qed.

(** Over any list of endpoints with distinct names: the object's
    [availableServices] only grows, a name that probes reachable leaves
    [unavailableServices], and a name reachable in one run and
    unreachable in a later one ends up in both sets. *)
Lemma availableServices_any (cfg : list SubgraphConfig) :
  List.NoDup (map name cfg) ->
  (forall fetch c n,
     In n (this_availableServices c) ->
     In n (this_availableServices (checkServiceHealth cfg fetch c).2))
  /\ (forall fetch c x,
        In x cfg -> reachable fetch x = true ->
        In (name x) (this_availableServices (checkServiceHealth cfg fetch c).2)
        /\ ~ In (name x) (this_unavailableServices (checkServiceHealth cfg fetch c).2))
  /\ (forall fetch1 fetch2 c x,
        In x cfg -> reachable fetch1 x = true -> reachable fetch2 x = false ->
        let c1 := (checkServiceHealth cfg fetch1 c).2 in
        let c2 := (checkServiceHealth cfg fetch2 c1).2 in
        In (name x) (availableServices (getStatus cfg c2))
        /\ In (name x) (unavailableServices (getStatus cfg c2))).
Proof.
  intros Hnd. unfold checkServiceHealth. cbn [snd].
  split; [|split].
  - intros fetch c n Hn. apply loop_available. left. exact Hn.
  - intros fetch c x Hx Hr. split.
    + apply loop_available. right. eauto.
    + rewrite (loop_unavailable _ _ _ _ Hnd).
      intros [(x' & Hx' & Hn & Hr')|[_ Hnot]].
      * rewrite (NoDup_name_inj cfg x' x Hnd Hx' Hx Hn) in Hr'. congruence.
      * apply Hnot. apply in_map. exact Hx.
  - intros fetch1 fetch2 c x Hx Hr1 Hr2. cbv zeta.
    unfold getStatus. cbn [availableServices unavailableServices]. split.
    + apply loop_available. left. apply loop_available. right. eauto.
    + apply (loop_unavailable _ _ _ _ Hnd). left. eauto.
Qed.

(** C10: for every configuration the gateway can build,
    [checkServiceHealth] only ever adds to the object's
    [availableServices] and never removes from it, while a name that
    probes reachable is taken out of [unavailableServices]; so a service
    found reachable by one run and unreachable by a later one is reported
    by [getStatus] in both lists at once. *)
Theorem availableServices_only_grows (env : ProcessEnv) :
  let cfg := SUBGRAPH_CONFIG env in
  (forall fetch c n,
     In n (this_availableServices c) ->
     In n (this_availableServices (checkServiceHealth cfg fetch c).2))
  /\ (forall fetch c x,
        In x cfg -> reachable fetch x = true ->
        In (name x) (this_availableServices (checkServiceHealth cfg fetch c).2)
        /\ ~ In (name x) (this_unavailableServices (checkServiceHealth cfg fetch c).2))
  /\ (forall fetch1 fetch2 c x,
        In x cfg -> reachable fetch1 x = true -> reachable fetch2 x = false ->
        let c1 := (checkServiceHealth cfg fetch1 c).2 in
        let c2 := (checkServiceHealth cfg fetch2 c1).2 in
        In (name x) (availableServices (getStatus cfg c2))
        /\ In (name x) (unavailableServices (getStatus cfg c2))).
Proof.
  cbv zeta. apply availableServices_any. apply SUBGRAPH_CONFIG_NoDup.
Qed.

Lemma availableServices_only_grows_witness :
  In "despacho"
     (availableServices
        (getStatus (SUBGRAPH_CONFIG env_two)
           (checkServiceHealth (SUBGRAPH_CONFIG env_two) fetch_despacho_down
              (checkServiceHealth (SUBGRAPH_CONFIG env_two) fetch_despacho_up
                 (new_checker (SUBGRAPH_CONFIG env_two))).2).2))
  /\ In "despacho"
       (unavailableServices
          (getStatus (SUBGRAPH_CONFIG env_two)
             (checkServiceHealth (SUBGRAPH_CONFIG env_two) fetch_despacho_down
                (checkServiceHealth (SUBGRAPH_CONFIG env_two) fetch_despacho_up
                   (new_checker (SUBGRAPH_CONFIG env_two))).2).2)).
Proof.
  destruct (availableServices_only_grows env_two) as (_ & _ & Hboth).
  apply (Hboth fetch_despacho_up fetch_despacho_down
           (new_checker (SUBGRAPH_CONFIG env_two)) despacho).
  - vm_compute. auto.
  - vm_compute. reflexivity.
  - vm_compute. reflexivity.
Defined.

Example getStatus_after_flap :
  getStatus (SUBGRAPH_CONFIG env_two)
    (checkServiceHealth (SUBGRAPH_CONFIG env_two) fetch_despacho_down
       (checkServiceHealth (SUBGRAPH_CONFIG env_two) fetch_despacho_up
          (new_checker (SUBGRAPH_CONFIG env_two))).2).2
  = {| availableServices := ["despacho"; "autentificacion"];
       unavailableServices := ["despacho"];
       totalConfigured := 2 |}.
Proof. vm_compute. reflexivity. Qed.


(** * Further properties *)

(** ** Splitting a header *)

Lemma split_nonempty (c : ascii) (s : string) : Js.split c s <> [].
Proof.
  destruct s as [|a r]; simpl; [discriminate|].
  destruct (Ascii.eqb a c); [discriminate|].
  destruct (Js.split c r); discriminate.
Qed.

(** Joining the parts with the separator gives the string back. *)
Lemma split_join (c : ascii) (s : string) :
  Js.join (String c EmptyString) (Js.split c s) = s.
Proof.
  induction s as [|a r IH]; [reflexivity|].
  simpl Js.split. destruct (Ascii.eqb_spec a c) as [->|Hne].
  - pose proof (split_nonempty c r) as Hr.
    destruct (Js.split c r) as [|p ps] eqn:Hs; [contradiction|].
    change (Js.join (String c "") ("" :: p :: ps))
      with (String c (Js.join (String c "") (p :: ps))).
    rewrite IH. reflexivity.
  - pose proof (split_nonempty c r) as Hr.
    destruct (Js.split c r) as [|p [|q ps]] eqn:Hs; [contradiction| |].
    + simpl in IH. simpl. rewrite IH. reflexivity.
    + change (Js.join (String c "") (String a p :: q :: ps))
        with (String a (p +:+ String c "" +:+ Js.join (String c "") (q :: ps))).
      change (Js.join (String c "") (p :: q :: ps))
        with (p +:+ String c "" +:+ Js.join (String c "") (q :: ps)) in IH.
      rewrite IH. reflexivity.
Qed.

(** No part contains the separator. *)
Lemma split_parts_clean (c : ascii) (s : string) :
  Forall (fun p => Js.includes_char c p = false) (Js.split c s).
Proof.
  induction s as [|a r IH]; simpl.
  - repeat constructor.
  - destruct (Ascii.eqb_spec a c) as [->|Hne].
    + constructor; [reflexivity | exact IH].
    + destruct (Js.split c r) as [|p ps]; [repeat constructor|].
      * simpl. destruct (Ascii.eqb_spec a c); [contradiction|reflexivity].
      * inversion IH as [|? ? Hp Hps]; subst. constructor; [|exact Hps].
        simpl. destruct (Ascii.eqb_spec a c); [contradiction|exact Hp].
Qed.

(** A string without the separator is its own single part. *)
Lemma split_clean (c : ascii) (s : string) :
  Js.includes_char c s = false -> Js.split c s = [s].
Proof.
  induction s as [|a r IH]; simpl; [reflexivity|].
  destruct (Ascii.eqb a c); [discriminate|].
  intros H. rewrite (IH H). reflexivity.
Qed.

(** Splitting at the first separator. *)
Lemma split_app (c : ascii) (p r : string) :
  Js.includes_char c p = false ->
  Js.split c (p +:+ String c r) = p :: Js.split c r.
Proof.
  induction p as [|a p IH]; simpl.
  - intros _. rewrite Ascii.eqb_refl. reflexivity.
  - destruct (Ascii.eqb a c); [discriminate|].
    intros H. rewrite (IH H). reflexivity.
Qed.

(** X1: [extractToken] returns a token exactly for the headers of the
    form [Bearer], one space, and a token without a space; it then
    returns that token and logs nothing. *)
Theorem extractToken_bearer_iff (w w' : World) (tok : string) :
  extractToken w = (Returns (Some tok), w')
  <-> (w' = w
       /\ authorization (req w) = Some ("Bearer " +:+ tok)
       /\ Js.includes_char " " tok = false).
Proof.
  unfold extractToken. run_js. split.
  - destruct (authorization (req w)) as [h|]; simpl; [|discriminate].
    unfold or_string. destruct (Js.truthy h); [|discriminate].
    pose proof (split_join " " h) as Hj.
    pose proof (split_parts_clean " " h) as Hc.
    destruct (Js.split " " h) as [|p0 [|p1 [|p2 ps]]]; try discriminate.
    destruct (String.eqb_spec p0 "Bearer") as [->|_]; [|discriminate].
    pose proof (Forall_inv (Forall_inv_tail Hc)) as Hp1. simpl in Hp1.
    intros H. injection H as Htok Hw. rewrite <- Htok.
    split; [congruence|]. split; [|exact Hp1].
    rewrite <- Hj. reflexivity.
  - intros (-> & Hh & Hclean). rewrite Hh.
    change (or_string (Some ("Bearer " +:+ tok)) None) with (Some ("Bearer " +:+ tok)).
    cbv beta iota.
    change ("Bearer " +:+ tok) with ("Bearer" +:+ String " " tok).
    rewrite (split_app " " "Bearer" tok eq_refl), (split_clean " " tok Hclean).
    reflexivity.
Qed.

(** ** The gate, end to end *)

(** Everything the routed validator can do to the context, the cache
    and the list of calls. *)
Lemma routed_outcome (e : Env) (tok : string) (w : World) :
  match detectTokenType tok with
  | sanctum =>
      (exists c w1,
         tokenCache w !! getCacheKey tok = Some c /\ now_lookup e <= expiresAt c
         /\ routed e tok w = (Returns tt, w1)
         /\ auth (req w1) = Some (sanctum_context tok (userData c))
         /\ posts w1 = posts w /\ tokenCache w1 = tokenCache w)
      \/ (exists u w1,
            (forall c, tokenCache w !! getCacheKey tok = Some c -> expiresAt c < now_lookup e)
            /\ accepted (axios_post e (authority_post e tok)) = Some u
            /\ routed e tok w = (Returns tt, w1)
            /\ auth (req w1) = Some (sanctum_context tok u)
            /\ posts w1 = (posts w ++ [authority_post e tok])%list
            /\ tokenCache w1
               = <[getCacheKey tok := {| userData := u; expiresAt := now_store e + 300000 |}]>
                   (tokenCache w))
      \/ (exists err w1,
            validation_fails e tok w
            /\ routed e tok w = (Throws err, w1)
            /\ posts w1 = (posts w ++ [authority_post e tok])%list
            /\ tokenCache w1 = delete (getCacheKey tok) (tokenCache w))
  | jwt =>
      (exists d w1,
         jwt_verify e tok (jwt_secret e) = Verified d
         /\ routed e tok w = (Returns tt, w1)
         /\ auth (req w1) = Some (jwt_context tok d)
         /\ posts w1 = posts w /\ tokenCache w1 = tokenCache w)
      \/ (exists err w1,
            validation_fails e tok w
            /\ routed e tok w = (Throws err, w1)
            /\ posts w1 = posts w /\ tokenCache w1 = tokenCache w)
  end.
Proof.
  unfold routed, validation_fails. destruct (detectTokenType tok).
  - destruct (getCachedValidation_cases (now_lookup e) tok w)
      as [(c & w0 & Hc & Hle & _)|(w0 & Hget & Hcache & Hexp & Hposts & _)].
    + left. destruct (validateSanctumToken_cached e tok c w Hc Hle)
        as (w1 & Hrun & Hauth & Hp & Hca & _).
      exists c, w1. auto 10.
    + right. destruct (accepted (axios_post e (authority_post e tok))) as [u|] eqn:Hacc.
      * left. destruct (validateSanctumToken_remote_success e tok u w w0 Hget Hacc)
          as (w1 & Hrun & Hca & Hp & Hauth & _).
        exists u, w1. repeat split; auto; try congruence.
        rewrite Hca, Hcache. apply insert_delete_eq.
      * right. destruct (validateSanctumToken_remote_failure e tok w w0 Hget Hacc)
          as (w1 & Hrun & Hca & Hp & _).
        eexists _, w1. repeat split; eauto; try congruence.
        apply not_accepted_RemoteFailure. exact Hacc.
  - destruct (validateJWTToken_cases e tok w)
      as [(d & w1 & Hv & Hrun & Hauth & _ & Hca & Hp & _)
         |(err & m & w1 & Hv & Hrun & _ & Hca & Hp & _)].
    + left. exists d, w1. auto 10.
    + right. eexists _, w1. repeat split; eauto.
Qed.

(** The three ways through [authenticateRequest]. *)
Lemma authenticateRequest_cases (e : Env) (w : World) :
  (exists o w',
     (extractToken w).1 = Returns o /\ or_string o None = None
     /\ authenticateRequest e w = (Returns tt, w')
     /\ auth (req w') = Some anonymous
     /\ posts w' = posts w /\ tokenCache w' = tokenCache w
     /\ nexts w' = S (nexts w) /\ res w' = res w)
  \/ (exists tok w2,
        (extractToken w).1 = Returns (Some tok) /\ tok <> ""
        /\ routed e tok (add_log (log_processing tok) (set_auth anonymous w))
           = (Returns tt, w2)
        /\ authenticateRequest e w = (Returns tt, add_next (add_log (log_success w2) w2)))
  \/ (exists tok err w2,
        (extractToken w).1 = Returns (Some tok) /\ tok <> ""
        /\ routed e tok (add_log (log_processing tok) (set_auth anonymous w))
           = (Throws err, w2)
        /\ authenticateRequest e w
           = (Returns tt, add_next (set_auth anonymous (add_log (log_failed err) w2)))).
Proof.
  rewrite authenticateRequest_steps.
  pose proof (extractToken_header w (set_auth anonymous w) eq_refl) as Hhdr.
  destruct (extractToken_cases (set_auth anonymous w)) as [(o & Hx)|(l & Hx)];
    rewrite Hx in *; simpl in Hhdr.
  - destruct (or_string o None) as [tok|] eqn:Ho.
    + apply or_string_Some in Ho as [-> Hne]. right.
      destruct (routed e tok _) as [[[]|err] w2] eqn:Hrun.
      * left. exists tok, w2. auto.
      * right. exists tok, err, w2. auto.
    + left. exists o. eexists. repeat split; eauto.
  - left. exists None. eexists. repeat split; eauto.
Qed.

Lemma falsy_id_truthy (o : option JsId) :
  falsy_id o <-> default false (id_truthy <$> o) = false.
Proof.
  unfold falsy_id. destruct o as [[[|a s]|n]|]; simpl.
  - split; auto.
  - split; [intros [H|[H|H]]|]; discriminate.
  - destruct (Z.eqb_spec n 0) as [->|Hn]; simpl.
    + split; auto.
    + split; [intros [H|[H|H]]|]; try discriminate. congruence.
  - split; auto.
Qed.

Lemma or_id_spec (a b : option JsId) :
  (~ falsy_id a -> or_id a b = a) /\ (falsy_id a -> or_id a b = b).
Proof.
  rewrite falsy_id_truthy. unfold or_id.
  destruct a as [i|]; simpl; [destruct (id_truthy i)|]; split; congruence.
Qed.

(** What an accepted answer of the authority looks like. *)
Lemma accepted_Some (o : AxiosOutcome) (u : AuthUser) :
  accepted o = Some u ->
  exists b, o = Resolved (Some b) /\ errors b = None
            /\ (data b ≫= validateToken) = Some u /\ ~ falsy_id (id u).
Proof.
  unfold accepted. destruct o as [err|[b|]]; simpl; try discriminate.
  destruct (errors b) eqn:He; [discriminate|].
  destruct (data b ≫= validateToken) as [u'|] eqn:Hd; [|discriminate].
  destruct (default false (id_truthy <$> id u')) eqn:Hid; [|discriminate].
  intros H. injection H as <-. exists b.
  split; [reflexivity|]. split; [exact He|]. split; [exact Hd|].
  intros Hf. apply falsy_id_truthy in Hf. congruence.
Qed.

(** X2: when the extracted credential passes validation,
    [authenticateRequest] attaches a context with [authenticated] true,
    the credential as token, its scheme as tag, and as user the identity
    the validator established: for an opaque token the one held by the
    unexpired cache entry, else the one in the authority's answer (no
    errors, an id that is not empty); for a signed token the verified
    claims, the id being the first of [userId], [sub], [id] that is not
    empty.  The last line logged names the email of that user and the
    scheme. *)
Theorem authenticateRequest_success (e : Env) (w : World) (tok : string) :
  (extractToken w).1 = Returns (Some tok) -> tok <> "" ->
  ~ validation_fails e tok w ->
  exists w' u,
    authenticateRequest e w = (Returns tt, w')
    /\ auth (req w')
       = Some {| authenticated := true; user := Some u;
                 token := Some tok; Auth.tokenType := Some (detectTokenType tok) |}
    /\ match detectTokenType tok with
       | sanctum =>
           (exists c, tokenCache w !! getCacheKey tok = Some c
                      /\ now_lookup e <= expiresAt c /\ u = userData c)
           \/ ((forall c, tokenCache w !! getCacheKey tok = Some c ->
                          expiresAt c < now_lookup e)
               /\ exists b, axios_post e (authority_post e tok) = Resolved (Some b)
                            /\ errors b = None
                            /\ (data b ≫= validateToken) = Some u
                            /\ ~ falsy_id (id u))
       | jwt =>
           exists d, jwt_verify e tok (jwt_secret e) = Verified d
                     /\ email u = c_email d /\ nombre u = c_nombre d
                     /\ role u = c_role d /\ roles u = c_roles d
                     /\ permissions u = c_permissions d
                     /\ (~ falsy_id (c_userId d) -> id u = c_userId d)
                     /\ (falsy_id (c_userId d) -> ~ falsy_id (c_sub d) -> id u = c_sub d)
                     /\ (falsy_id (c_userId d) -> falsy_id (c_sub d) -> id u = c_id d)
       end
    /\ last (logged w')
       = Some {| level := LInfo;
                 message :=
                   "Authentication successful for user: "
                   +:+ match email u with
                       | JAbsent => "undefined"
                       | JNull => "null"
                       | JStr s => s
                       end
                   +:+ " ("
                   +:+ match detectTokenType tok with
                       | sanctum => "sanctum"
                       | jwt => "jwt"
                       end
                   +:+ ")" |}.
Proof.
  intros Htok Hne Hok.
  set (wm := add_log (log_processing tok) (set_auth anonymous w)).
  destruct (authenticateRequest_cases e w)
    as [(o & w' & Ho & Hnone & _)
       |[(tok' & w2 & Htok' & _ & Hrun & Hres)|(tok' & err & w2 & Htok' & _ & Hrun & Hres)]].
  - exfalso. rewrite Htok in Ho. injection Ho as <-.
    assert (or_string (Some tok) None = Some tok) by (apply or_string_Some; auto).
    congruence.
  - rewrite Htok in Htok'. injection Htok' as <-. fold wm in Hrun.
    pose proof (routed_outcome e tok wm) as Hout.
    assert (Hlast : forall u ty,
              auth (req w2) = Some {| authenticated := true; user := Some u;
                                      token := Some tok; Auth.tokenType := Some ty |} ->
              last (logged (add_next (add_log (log_success w2) w2)))
              = Some {| level := LInfo;
                        message :=
                          "Authentication successful for user: "
                          +:+ match email u with
                              | JAbsent => "undefined"
                              | JNull => "null"
                              | JStr s => s
                              end
                          +:+ " ("
                          +:+ match ty with sanctum => "sanctum" | jwt => "jwt" end
                          +:+ ")" |}).
    { intros u ty Hauth. simpl. rewrite last_snoc. unfold log_success.
      rewrite Hauth. reflexivity. }
    destruct (detectTokenType tok).
    + destruct Hout as [(c & w1 & Hc & Hle & Hrun' & Hauth & _)
                       |[(u & w1 & Hexp & Hacc & Hrun' & Hauth & _)
                        |(err & w1 & Hfail & _)]]; [| |contradiction];
        rewrite Hrun in Hrun'; injection Hrun' as <-.
      * exists (add_next (add_log (log_success w2) w2)), (userData c).
        split; [exact Hres|]. split; [exact Hauth|].
        split; [left; exists c; auto | apply (Hlast _ _ Hauth)].
      * exists (add_next (add_log (log_success w2) w2)), u.
        split; [exact Hres|]. split; [exact Hauth|].
        split; [|apply (Hlast _ _ Hauth)].
        right. split; [exact Hexp|]. apply accepted_Some. exact Hacc.
    + destruct Hout as [(d & w1 & Hv & Hrun' & Hauth & _)|(err & w1 & Hfail & _)];
        [|contradiction].
      rewrite Hrun in Hrun'. injection Hrun' as <-.
      eexists (add_next (add_log (log_success w2) w2)), _.
      split; [exact Hres|]. split; [exact Hauth|].
      split; [|apply (Hlast _ _ Hauth)].
      exists d. split; [exact Hv|]. cbn [id email nombre role roles permissions].
      destruct (or_id_spec (c_userId d) (or_id (c_sub d) (c_id d))) as [H1 H2].
      destruct (or_id_spec (c_sub d) (c_id d)) as [H3 H4].
      repeat split; auto.
      * intros Hf Hg. rewrite (H2 Hf). auto.
      * intros Hf Hg. rewrite (H2 Hf). auto.
  - exfalso. rewrite Htok in Htok'. injection Htok' as <-. fold wm in Hrun.
    assert (Hok' : ~ validation_fails e tok wm).
    { intros H. apply Hok. eapply validation_fails_cache; [|exact H]. reflexivity. }
    destruct (routed_cases e tok wm) as [(a & w1 & Hrun' & _)|(m & w1 & _ & Hfail & _)].
    + rewrite Hrun in Hrun'. discriminate.
    + contradiction.
Qed.

Lemma authenticateRequest_success_witness :
  exists w' u,
    authenticateRequest (env_up 1000) (world0 (Some "Bearer 1|abc123xyz")) = (Returns tt, w')
    /\ auth (req w')
       = Some {| authenticated := true; user := Some u;
                 token := Some "1|abc123xyz"; Auth.tokenType := Some sanctum |}.
Proof.
  destruct (authenticateRequest_success (env_up 1000)
              (world0 (Some "Bearer 1|abc123xyz")) "1|abc123xyz")
    as (w' & u & Hrun & Hauth & _).
  - vm_compute. reflexivity.
  - discriminate.
  - intros [_ Hfail]. apply RemoteFailure_not_accepted in Hfail.
    vm_compute in Hfail. discriminate.
  - exists w', u. auto.
Defined.

Example null_email_is_logged_as_null :
  let e := {| getenv := fun _ => None; now_lookup := 0; now_store := 0;
              axios_post := fun _ =>
                Resolved (Some {| errors := None;
                                  data := Some {| validateToken :=
                                    Some {| id := Some (IdNumber 7); email := JNull;
                                            nombre := None; role := None;
                                            roles := None; permissions := None |} |} |});
              jwt_verify := fun _ _ =>
                VerifyThrows {| cls := JsonWebTokenError; msg := "jwt malformed" |} |} in
  last (logged (authenticateRequest e (world0 (Some "Bearer 1|abc123xyz"))).2)
  = Some {| level := LInfo;
            message := "Authentication successful for user: null (sanctum)" |}.
Proof. vm_compute. reflexivity. Qed.

(** X3: what one [authenticateRequest] does outside the request: it
    issues at most one call, and only for an opaque token; it leaves
    every cache entry other than the one of the presented credential as
    it was; and for a signed token it neither calls the authority nor
    touches the cache. *)
Theorem authenticateRequest_footprint (e : Env) (w : World) :
  let w' := (authenticateRequest e w).2 in
  (posts w' = posts w
   \/ exists tok, (extractToken w).1 = Returns (Some tok)
                  /\ detectTokenType tok = sanctum
                  /\ posts w' = (posts w ++ [authority_post e tok])%list)
  /\ (forall k,
        (forall tok, (extractToken w).1 = Returns (Some tok) -> k <> getCacheKey tok) ->
        tokenCache w' !! k = tokenCache w !! k)
  /\ (forall tok,
        (extractToken w).1 = Returns (Some tok) -> detectTokenType tok = jwt ->
        posts w' = posts w /\ tokenCache w' = tokenCache w).
Proof.
  cbv zeta.
  assert (Hmid : forall tok w2 (r : Outcome unit),
            routed e tok (add_log (log_processing tok) (set_auth anonymous w)) = (r, w2) ->
            match detectTokenType tok with
            | sanctum =>
                (posts w2 = posts w \/ posts w2 = (posts w ++ [authority_post e tok])%list)
                /\ (forall k, k <> getCacheKey tok -> tokenCache w2 !! k = tokenCache w !! k)
            | jwt => posts w2 = posts w /\ tokenCache w2 = tokenCache w
            end).
  { intros tok w2 r Hrun.
    pose proof (routed_outcome e tok (add_log (log_processing tok) (set_auth anonymous w)))
      as Hout.
    destruct (detectTokenType tok).
    - destruct Hout as [(c & w1 & _ & _ & Hrun' & _ & Hp & Hc)
                       |[(u & w1 & _ & _ & Hrun' & _ & Hp & Hc)
                        |(err & w1 & _ & Hrun' & Hp & Hc)]];
        rewrite Hrun in Hrun'; injection Hrun' as _ ->; simpl in Hp, Hc;
        (split; [auto|]); intros k Hk; rewrite Hc.
      + reflexivity.
      + apply lookup_insert_ne. congruence.
      + apply lookup_delete_ne. congruence.
    - destruct Hout as [(d & w1 & _ & Hrun' & _ & Hp & Hc)|(err & w1 & _ & Hrun' & Hp & Hc)];
        rewrite Hrun in Hrun'; injection Hrun' as _ ->; auto. }
  destruct (authenticateRequest_cases e w)
    as [(o & w' & Ho & Hnone & Hres & _ & Hp & Hc & _)
       |[(tok & w2 & Htok & Hne & Hrun & Hres)|(tok & err & w2 & Htok & Hne & Hrun & Hres)]];
    rewrite Hres; simpl.
  - split; [left; exact Hp|]. split.
    + intros k _. rewrite Hc. reflexivity.
    + intros tok _ _. auto.
  - specialize (Hmid tok w2 _ Hrun). split; [|split].
    + destruct (detectTokenType tok) eqn:Hty.
      * destruct Hmid as [[Hp|Hp] _]; [left; exact Hp|right; exists tok; auto].
      * left. apply Hmid.
    + intros k Hk. specialize (Hk tok Htok).
      destruct (detectTokenType tok); [apply Hmid; exact Hk|].
      destruct Hmid as [_ ->]. reflexivity.
    + intros tok' Htok' Hty. rewrite Htok in Htok'. injection Htok' as <-.
      rewrite Hty in Hmid. exact Hmid.
  - specialize (Hmid tok w2 _ Hrun). split; [|split].
    + destruct (detectTokenType tok) eqn:Hty.
      * destruct Hmid as [[Hp|Hp] _]; [left; exact Hp|right; exists tok; auto].
      * left. apply Hmid.
    + intros k Hk. specialize (Hk tok Htok).
      destruct (detectTokenType tok); [apply Hmid; exact Hk|].
      destruct Hmid as [_ ->]. reflexivity.
    + intros tok' Htok' Hty. rewrite Htok in Htok'. injection Htok' as <-.
      rewrite Hty in Hmid. exact Hmid.
Qed.

Lemma authenticateRequest_footprint_witness :
  posts (authenticateRequest (env_up 1000)
           (world0 (Some "Bearer eyJhbGciOi.eyJzdWIi.c2ln"))).2 = []
  /\ tokenCache (authenticateRequest (env_up 1000)
                   (world0 (Some "Bearer eyJhbGciOi.eyJzdWIi.c2ln"))).2 = ∅.
Proof.
  apply (proj2 (proj2 (authenticateRequest_footprint (env_up 1000)
                         (world0 (Some "Bearer eyJhbGciOi.eyJzdWIi.c2ln"))))
           "eyJhbGciOi.eyJzdWIi.c2ln").
  - vm_compute. reflexivity.
  - vm_compute. reflexivity.
Defined.

(** ** The authorization middlewares behind the gate *)

Lemma requireAuth_run (w : World) :
  requireAuth w
  = (Returns tt,
     if is_authenticated w then add_next w
     else set_res unauthorized
            (add_log {| level := LWarn; message := "Unauthorized access attempt" |} w)).
Proof.
  unfold requireAuth. run_js. destruct (is_authenticated w); reflexivity.
Qed.

(** X4: [requireAuth] behind [authenticateRequest].  A request whose
    credential passes validation goes through both (two calls of [next],
    response untouched); every other request, whether it carries no
    usable header or a credential that fails validation for whatever
    reason, is stopped with the same 401 answer. *)
Theorem requireAuth_after_gate (e : Env) (w : World) :
  let w2 := then_run (authenticateRequest e) requireAuth w in
  ((exists tok, (extractToken w).1 = Returns (Some tok) /\ tok <> ""
                /\ ~ validation_fails e tok w)
   /\ nexts w2 = S (S (nexts w)) /\ res w2 = res w)
  \/ ((forall tok, (extractToken w).1 = Returns (Some tok) -> tok <> "" ->
                   validation_fails e tok w)
      /\ nexts w2 = S (nexts w) /\ res w2 = unauthorized).
Proof.
  cbv zeta. unfold then_run. rewrite requireAuth_run. cbn [snd].
  destruct (authenticateRequest_cases e w)
    as [(o & w' & Ho & Hnone & Hres & Hauth & _ & _ & Hnext & Hr)
       |[(tok & w2 & Htok & Hne & Hrun & Hres)|(tok & err & w2 & Htok & Hne & Hrun & Hres)]].
  - right.
    rewrite Hres. cbn [snd]. unfold is_authenticated. rewrite Hauth. simpl.
    split; [|auto].
    intros tok Htok Hne. exfalso. rewrite Htok in Ho. injection Ho as <-.
    assert (or_string (Some tok) None = Some tok) by (apply or_string_Some; auto).
    congruence.
  - left.
    destruct (routed_cases e tok (add_log (log_processing tok) (set_auth anonymous w)))
      as [(a & w1 & Hrun' & Hok & Hauth & Htrue & Hr & Hn)|(m & w1 & Hrun' & _)];
      rewrite Hrun in Hrun'; [injection Hrun' as <-|discriminate].
    rewrite Hres. cbn [snd]. unfold is_authenticated. simpl. rewrite Hauth. simpl.
    rewrite Htrue. simpl in Hr, Hn. simpl. split; [|split; congruence].
    exists tok. repeat split; auto.
  - right.
    destruct (routed_cases e tok (add_log (log_processing tok) (set_auth anonymous w)))
      as [(a & w1 & Hrun' & _)|(m & w1 & Hrun' & Hfail & Hr & Hn)];
      rewrite Hrun in Hrun'; [discriminate|injection Hrun' as _ <-].
    rewrite Hres. cbn [snd]. simpl in Hr, Hn. simpl. split; [|split; congruence].
    intros tok' Htok' _. rewrite Htok in Htok'. injection Htok' as <-.
    eapply validation_fails_cache; [|exact Hfail]. reflexivity.
Qed.

(** X5: the requests [requireRole] never lets through: one without an
    authenticated context is answered 401, whatever the roles; an
    authenticated one is answered 403 when the allowed list is empty, or
    when the identity has neither a non-empty [role] nor a non-empty
    first entry of [roles].  In none of these cases is [next] called. *)
Theorem requireRole_rejections (allowedRoles : list string) (w : World) :
  let w' := (requireRole allowedRoles w).2 in
  (is_authenticated w = false -> nexts w' = nexts w /\ res w' = unauthorized)
  /\ (is_authenticated w = true -> allowedRoles = [] ->
      nexts w' = nexts w /\ res w' = forbidden)
  /\ (is_authenticated w = true ->
      or_string ((auth (req w) ≫= user) ≫= role) None = None ->
      or_string (((auth (req w) ≫= user) ≫= roles) ≫= head) None = None ->
      nexts w' = nexts w /\ res w' = forbidden).
Proof.
  cbv zeta. unfold requireRole. run_js.
  destruct (is_authenticated w) eqn:Hauth; simpl.
  - split; [discriminate|]. split.
    + intros _ ->.
      destruct (or_string (or_string _ _) None); simpl; auto.
    + intros _ Hrole Hroles.
      assert (Hnone : or_string (or_string ((auth (req w) ≫= user) ≫= role)
                                  (((auth (req w) ≫= user) ≫= roles) ≫= head)) None
                      = None).
      { unfold or_string in *.
        destruct ((auth (req w) ≫= user) ≫= role) as [r|].
        - destruct (Js.truthy r); [discriminate|]. exact Hroles.
        - exact Hroles. }
      rewrite Hnone. simpl. auto.
  - split; [auto|]. split; discriminate.
Qed.

Lemma requireRole_rejections_witness :
  nexts (requireRole ["ADMIN"] (world0 None)).2 = 0%nat
  /\ res (requireRole ["ADMIN"] (world0 None)).2 = unauthorized.
Proof.
  apply (proj1 (requireRole_rejections ["ADMIN"] (world0 None))).
  reflexivity.
Defined.

Lemma requireRole_pass_sound_witness :
  is_authenticated (world_of alice) = true /\ intersects (role_set alice) ["ADMIN"].
Proof.
  apply (requireRole_pass_sound ["ADMIN"] (world_of alice)
           (requireRole ["ADMIN"] (world_of alice)).2 alice).
  - reflexivity.
  - vm_compute. reflexivity.
  - vm_compute. auto.
Defined.

Lemma legacy_requireRole_intersects_witness :
  exists w', Legacy.requireRole ["ADMIN"] (world_of bob) = (Returns tt, w')
  /\ (passes (world_of bob) w'
      <-> intersects (default [] ((auth (req (world_of bob)) ≫= user) ≫= roles)) ["ADMIN"]).
Proof.
  apply (legacy_requireRole_intersects ["ADMIN"] (world_of bob)).
  reflexivity.
Defined.

(** ** Revocation and the sweep *)

(** X6: [clearTokenCache] removes the entry of the token and nothing
    else; afterwards a lookup of the token misses at any time, and the
    next validation of the token calls the authority again. *)
Theorem clearTokenCache_forces_revalidation (tok : string) (w : World) :
  let w1 := (clearTokenCache tok w).2 in
  tokenCache w1 = delete (getCacheKey tok) (tokenCache w)
  /\ (forall k, k <> getCacheKey tok -> tokenCache w1 !! k = tokenCache w !! k)
  /\ posts w1 = posts w
  /\ (forall now, getCachedValidation now tok w1 = (Returns None, w1))
  /\ (forall e, exists r w2,
        validateSanctumToken e tok w1 = (r, w2)
        /\ posts w2 = (posts w ++ [authority_post e tok])%list).
Proof.
  cbv zeta. unfold clearTokenCache. run_js.
  set (w1 := add_log _ _).
  assert (Hnone : tokenCache w1 !! getCacheKey tok = None) by apply lookup_delete_eq.
  split; [reflexivity|]. split.
  { intros k Hk. apply lookup_delete_ne. congruence. }
  split; [reflexivity|]. split.
  { intros now. apply getCachedValidation_absent. exact Hnone. }
  intros e.
  pose proof (getCachedValidation_absent (now_lookup e) tok w1 Hnone) as Hget.
  destruct (accepted (axios_post e (authority_post e tok))) as [u|] eqn:Hacc.
  - destruct (validateSanctumToken_remote_success e tok u w1 w1 Hget Hacc)
      as (w2 & Hrun & _ & Hp & _).
    exists (Returns tt), w2. auto.
  - destruct (validateSanctumToken_remote_failure e tok w1 w1 Hget Hacc)
      as (w2 & Hrun & _ & Hp & _).
    eexists _, w2. eauto.
Qed.

(** X7: [cleanExpiredCache] at time [now] returns the number of entries
    whose [expiresAt] lies before [now], and leaves in the cache exactly
    the other entries, unchanged; a second sweep at the same time removes
    nothing and returns 0. *)
Theorem cleanExpiredCache_sweeps (now : Z) (w : World) :
  let r := cleanExpiredCache now w in
  r.1 = Returns (size (expired_at now (tokenCache w)))
  /\ (forall k c, tokenCache r.2 !! k = Some c
                  <-> tokenCache w !! k = Some c /\ now <= expiresAt c)
  /\ posts r.2 = posts w /\ req r.2 = req w /\ res r.2 = res w
  /\ (cleanExpiredCache now r.2).1 = Returns 0%nat
  /\ tokenCache (cleanExpiredCache now r.2).2 = tokenCache r.2.
Proof.
  cbv zeta.
  assert (Hrun : forall w0,
            let kept := filter (fun kv => ~ now > expiresAt kv.2) (tokenCache w0) in
            (cleanExpiredCache now w0).1
            = Returns (size (tokenCache w0) - size kept)%nat
            /\ tokenCache (cleanExpiredCache now w0).2 = kept
            /\ posts (cleanExpiredCache now w0).2 = posts w0
            /\ req (cleanExpiredCache now w0).2 = req w0
            /\ res (cleanExpiredCache now w0).2 = res w0).
  { intros w0. cbv zeta. unfold cleanExpiredCache. run_js.
    destruct (0 <? _)%nat; simpl; auto. }
  destruct (Hrun w) as (Hcount & Hkept & Hp & Hrq & Hrs).
  set (kept := filter (fun kv => ~ now > expiresAt kv.2) (tokenCache w)) in *.
  assert (Hsize : size (tokenCache w)
                  = (size (expired_at now (tokenCache w)) + size kept)%nat).
  { rewrite <- map_size_disj_union by apply map_disjoint_filter_complement.
    unfold expired_at, kept. rewrite map_filter_union_complement. reflexivity. }
  assert (Hkeep : filter (fun kv => ~ now > expiresAt kv.2) kept = kept).
  { apply map_filter_id. intros k c Hc.
    apply map_lookup_filter_Some in Hc as [_ Hc]. exact Hc. }
  split; [rewrite Hcount; f_equal; lia|]. split.
  { intros k c. rewrite Hkept. unfold kept. rewrite map_lookup_filter_Some. simpl.
    split; intros [H1 H2]; split; auto; lia. }
  split; [exact Hp|]. split; [exact Hrq|]. split; [exact Hrs|].
  destruct (Hrun (cleanExpiredCache now w).2) as (Hcount2 & Hkept2 & _).
  rewrite Hkept in Hcount2, Hkept2. rewrite Hkeep in Hcount2, Hkept2.
  split; [rewrite Hcount2; f_equal; lia|]. rewrite Hkept2, Hkept. reflexivity.
Qed.

Lemma cleanExpiredCache_keeps_lookups_witness :
  (getCachedValidation 2000 "1|abc123xyz"
     (cleanExpiredCache 1500
        (cacheValidation 1000 "1|abc123xyz" alice (world0 None)).2).2).1
  = (getCachedValidation 2000 "1|abc123xyz"
       (cacheValidation 1000 "1|abc123xyz" alice (world0 None)).2).1.
Proof.
  apply (cleanExpiredCache_keeps_lookups 1500 2000 "1|abc123xyz"). lia.
Defined.

(** ** The cache key *)

Lemma hex_length (bs : list Z) : String.length (MD5.hex bs) = (2 * List.length bs)%nat.
Proof.
  induction bs as [|b r IH]; simpl; [reflexivity|]. rewrite IH. lia.
Qed.

Lemma le_bytes_length (n : nat) (x : Z) : List.length (MD5.le_bytes n x) = n.
Proof.
  revert x. induction n as [|n IH]; intros x; simpl; [reflexivity|]. rewrite IH. reflexivity.
Qed.

Lemma string_length_append (s1 s2 : string) :
  String.length (s1 +:+ s2) = (String.length s1 + String.length s2)%nat.
Proof.
  induction s1 as [|a r IH]; simpl; [reflexivity|]. rewrite IH. reflexivity.
Qed.

(** X8: whatever the length of the token, its cache key is the prefix
    [token:] followed by 32 characters. *)
Theorem getCacheKey_shape (tok : string) :
  exists digest,
    getCacheKey tok = "token:" +:+ digest /\ String.length digest = 32%nat
    /\ String.length (getCacheKey tok) = 38%nat.
Proof.
  unfold getCacheKey.
  assert (Hlen : String.length (MD5.hexdigest tok) = 32%nat).
  { unfold MD5.hexdigest.
    destruct (fold_left MD5.compress _ MD5.init) as [a b c d].
    rewrite hex_length, !length_app, !le_bytes_length. reflexivity. }
  exists (MD5.hexdigest tok). split; [reflexivity|]. split; [exact Hlen|].
  rewrite string_length_append, Hlen. reflexivity.
Qed.

(** ** The configuration *)

Lemma getSubgraphURL_nonempty (env : ProcessEnv) (envVar defaultUrl : string) :
  defaultUrl <> "" -> getSubgraphURL env envVar defaultUrl <> "".
Proof.
  intros Hd. unfold getSubgraphURL.
  destruct (or_string (env envVar) None) as [s|] eqn:Hs; simpl; [|exact Hd].
  apply or_string_Some in Hs. tauto.
Qed.

Lemma entry_In (env : ProcessEnv) (n envVar defaultUrl : string) (x : SubgraphConfig) :
  In x (entry env n envVar defaultUrl) ->
  x = {| name := n; url := getSubgraphURL env envVar defaultUrl;
         timeout := 10000; retries := 3 |}
  /\ Js.includes (enabledServices env) n = true.
Proof.
  unfold entry. destruct (Js.includes (enabledServices env) n); simpl; [|tauto].
  intros [<-|[]]. auto.
Qed.

(** *** Strings, white space and trimming *)

Lemma append_cons (a : ascii) (s t : string) : String a s +:+ t = String a (s +:+ t).
Proof. reflexivity. Qed.

Lemma append_nil_r (s : string) : s +:+ "" = s.
Proof.
  induction s as [|a s IH]; [reflexivity|]. rewrite append_cons, IH. reflexivity.
Qed.

Lemma append_assoc (a b c : string) : (a +:+ b) +:+ c = a +:+ (b +:+ c).
Proof.
  induction a as [|x a IH]; [reflexivity|]. rewrite !append_cons, IH. reflexivity.
Qed.

Lemma append_inv_head (p a b : string) : p +:+ a = p +:+ b -> a = b.
Proof.
  induction p as [|x p IH]; [auto|]. rewrite !append_cons. intros H. injection H as H. auto.
Qed.

Lemma list_of_append (a b : string) :
  list_ascii_of_string (a +:+ b) = (list_ascii_of_string a ++ list_ascii_of_string b)%list.
Proof.
  induction a as [|x a IH]; [reflexivity|]. rewrite append_cons. simpl. rewrite IH. reflexivity.
Qed.

Lemma string_of_app (l1 l2 : list ascii) :
  string_of_list_ascii (l1 ++ l2) = string_of_list_ascii l1 +:+ string_of_list_ascii l2.
Proof. induction l1 as [|x l1 IH]; simpl; [reflexivity|]. rewrite IH. reflexivity. Qed.

Lemma rev_string_append (a b : string) :
  Js.rev_string (a +:+ b) = Js.rev_string b +:+ Js.rev_string a.
Proof.
  unfold Js.rev_string. rewrite list_of_append, rev_app_distr. apply string_of_app.
Qed.

Lemma rev_string_involutive (s : string) : Js.rev_string (Js.rev_string s) = s.
Proof.
  unfold Js.rev_string. rewrite list_ascii_of_string_of_list_ascii, rev_involutive.
  apply string_of_list_ascii_of_string.
Qed.

Lemma string_length_list (s : string) : String.length s = List.length (list_ascii_of_string s).
Proof. induction s as [|a s IH]; simpl; [reflexivity|]. rewrite IH. reflexivity. Qed.

Lemma rev_string_length (s : string) : String.length (Js.rev_string s) = String.length s.
Proof.
  unfold Js.rev_string.
  rewrite !string_length_list, list_ascii_of_string_of_list_ascii. apply length_rev.
Qed.

Lemma drop_Some (p s r : string) : Js.drop p s = Some r <-> s = p +:+ r.
Proof.
  revert s. induction p as [|a p IH]; intros s.
  - simpl. change ("" +:+ r) with r. split; congruence.
  - rewrite append_cons. simpl. destruct s as [|b s]; [split; discriminate|].
    destruct (Ascii.eqb_spec a b) as [->|Hne].
    + rewrite IH. split; [intros ->; reflexivity | intros H; injection H; auto].
    + split; [discriminate|]. intros H. injection H as H _. congruence.
Qed.

Lemma drop_any_Some (ws : list string) (s r : string) :
  Js.drop_any ws s = Some r -> exists p, In p ws /\ s = p +:+ r.
Proof.
  induction ws as [|p ws IH]; simpl; [discriminate|].
  destruct (Js.drop p s) as [r'|] eqn:Hd.
  - intros H. injection H as ->. apply drop_Some in Hd. eauto.
  - intros H. destruct (IH H) as (q & Hq & Hs). eauto.
Qed.

Lemma drop_any_None (ws : list string) (s : string) :
  Js.drop_any ws s = None -> forall p r, In p ws -> s <> p +:+ r.
Proof.
  induction ws as [|q ws IH]; simpl; [tauto|].
  destruct (Js.drop q s) as [r'|] eqn:Hd; [discriminate|].
  intros H p r [->|Hp] Hs.
  - apply drop_Some in Hs. congruence.
  - apply (IH H p r Hp Hs).
Qed.

Lemma made_of_app (ws : list string) (a b : string) :
  made_of ws a -> made_of ws b -> made_of ws (a +:+ b).
Proof.
  induction 1 as [|p s Hp Hs IH]; intros Hb; [exact Hb|].
  rewrite append_assoc. constructor; auto.
Qed.

Lemma made_of_one (ws : list string) (p : string) : In p ws -> made_of ws p.
Proof. intros Hp. rewrite <- (append_nil_r p). constructor; [exact Hp | constructor]. Qed.

Lemma made_of_rev (ws : list string) (s : string) :
  made_of ws s -> made_of (map Js.rev_string ws) (Js.rev_string s).
Proof.
  induction 1 as [|p s Hp Hs IH]; [constructor|].
  rewrite rev_string_append. apply made_of_app; [exact IH|].
  apply made_of_one. apply in_map. exact Hp.
Qed.

Lemma made_of_unrev (ws : list string) (s : string) :
  made_of (map Js.rev_string ws) s -> made_of ws (Js.rev_string s).
Proof.
  induction 1 as [|p s Hp Hs IH]; [constructor|].
  rewrite rev_string_append. apply made_of_app; [exact IH|].
  apply made_of_one. apply in_map_iff in Hp as (q & <- & Hq).
  rewrite rev_string_involutive. exact Hq.
Qed.

(** What the check [prefix_free] gives. *)
Lemma prefix_free_spec (ws : list string) :
  prefix_free ws = true ->
  (forall p, In p ws -> p <> "")
  /\ (forall p q x y, In p ws -> In q ws -> p +:+ x = q +:+ y -> p = q).
Proof.
  unfold prefix_free. rewrite forallb_forall. intros Hall.
  assert (Hpre : forall p q z, In p ws -> In q ws -> q = p +:+ z -> q = p).
  { intros p q z Hp Hq Hz. specialize (Hall p Hp). apply andb_true_iff in Hall as [_ Hall].
    rewrite forallb_forall in Hall. specialize (Hall q Hq).
    apply drop_Some in Hz. rewrite Hz in Hall. apply String.eqb_eq in Hall.
    apply drop_Some in Hz. rewrite Hz, Hall. apply append_nil_r. }
  split.
  - intros p Hp ->. specialize (Hall "" Hp). simpl in Hall. discriminate.
  - assert (Hgen : forall a b x y, a +:+ x = b +:+ y ->
                     (exists z, b = a +:+ z) \/ (exists z, a = b +:+ z)).
    { induction a as [|c a IH]; intros b x y H.
      - left. exists b. reflexivity.
      - destruct b as [|d b]; [right; exists (String c a); reflexivity|].
        rewrite !append_cons in H. injection H as -> H.
        destruct (IH b x y H) as [(z & ->)|(z & ->)].
        + left. exists z. reflexivity.
        + right. exists z. reflexivity. }
    intros p q x y Hp Hq H. destruct (Hgen p q x y H) as [(z & Hz)|(z & Hz)].
    + symmetry. apply (Hpre p q z Hp Hq Hz).
    + apply (Hpre q p z Hq Hp Hz).
Qed.

Lemma strip_sound (ws : list string) :
  (forall p, In p ws -> p <> "") ->
  forall n s, (String.length s <= n)%nat ->
  exists l, made_of ws l /\ s = l +:+ Js.strip ws n s.
Proof.
  intros Hne. induction n as [|n IH]; intros s Hlen; simpl.
  - exists "". split; [constructor | reflexivity].
  - destruct (Js.drop_any ws s) as [r|] eqn:Hd.
    + apply drop_any_Some in Hd as (p & Hp & ->).
      assert (Hp' : p <> "") by auto.
      rewrite string_length_append in Hlen.
      destruct p as [|a p]; [contradiction|]. simpl in Hlen.
      destruct (IH r) as (l & Hl & Hr); [lia|].
      exists (String a p +:+ l). split; [constructor; auto|].
      rewrite append_assoc, <- Hr. reflexivity.
    + exists "". split; [constructor | reflexivity].
Qed.

Lemma strip_complete (ws : list string) :
  prefix_free ws = true ->
  forall l t, made_of ws l -> Js.drop_any ws t = None ->
  forall n, (String.length (l +:+ t) <= n)%nat -> Js.strip ws n (l +:+ t) = t.
Proof.
  intros Hpf. destruct (prefix_free_spec ws Hpf) as [Hne Hfree].
  intros l t Hl Ht. induction Hl as [|p s Hp Hs IH]; intros n Hlen.
  - change ("" +:+ t) with t. destruct n; simpl; [reflexivity|]. rewrite Ht. reflexivity.
  - rewrite append_assoc in *. rewrite string_length_append in Hlen.
    assert (Hp' : p <> "") by auto.
    destruct n as [|n].
    { destruct p; [contradiction|simpl in Hlen; lia]. }
    simpl. destruct (Js.drop_any ws (p +:+ s +:+ t)) as [r|] eqn:Hd.
    + apply drop_any_Some in Hd as (q & Hq & Heq).
      pose proof (Hfree p q _ _ Hp Hq Heq) as <-.
      apply append_inv_head in Heq. rewrite <- Heq. apply IH.
      destruct p; [contradiction|simpl in Hlen; lia].
    + exfalso. apply (drop_any_None ws _ Hd p (s +:+ t) Hp). reflexivity.
Qed.

Lemma none_starts_with_spec (ws : list string) (a : ascii) (x : string) :
  none_starts_with ws a = true -> Js.drop_any ws (String a x) = None.
Proof.
  unfold none_starts_with. induction ws as [|p ws IH]; simpl; [reflexivity|].
  intros H. apply andb_true_iff in H as [Hp Hws].
  destruct p as [|b p]; [discriminate|]. simpl.
  destruct (Ascii.eqb b a); [discriminate|]. auto.
Qed.

(** The two presentations of white space agree. *)
Lemma white_space_utf8 : map utf8 white_space_code_points = Js.white_space.
Proof. vm_compute. reflexivity. Qed.

Lemma white_space_prefix_free : prefix_free Js.white_space = true.
Proof. vm_compute. reflexivity. Qed.

Lemma white_space_suffix_free : prefix_free (map Js.rev_string Js.white_space) = true.
Proof. vm_compute. reflexivity. Qed.

(** What [trim] leaves is what was there, less white space at both ends. *)
Lemma trim_sound (p : string) :
  exists l r, p = l +:+ Js.trim p +:+ r /\ blank l /\ blank r.
Proof.
  unfold blank. rewrite white_space_utf8.
  destruct (prefix_free_spec _ white_space_prefix_free) as [Hne _].
  destruct (prefix_free_spec _ white_space_suffix_free) as [Hne' _].
  unfold Js.trim, Js.trim_right.
  destruct (strip_sound Js.white_space Hne (String.length p) p (le_n _)) as (l & Hl & Hp).
  fold (Js.trim_left p) in Hp. set (t := Js.trim_left p) in *.
  destruct (strip_sound _ Hne' (String.length t) (Js.rev_string t)) as (l2 & Hl2 & Ht).
  { rewrite rev_string_length. lia. }
  set (t2 := Js.strip _ _ _) in *.
  exists l, (Js.rev_string l2). split; [|split; [exact Hl | apply made_of_unrev; exact Hl2]].
  rewrite <- rev_string_append, <- Ht, rev_string_involutive. exact Hp.
Qed.

(** A solid name with white space around it trims to the name. *)
Lemma trim_complete (l n r : string) :
  solid n -> blank l -> blank r -> Js.trim (l +:+ n +:+ r) = n.
Proof.
  unfold blank. rewrite white_space_utf8.
  intros (a & x & b & y & Hn & Hrev & Ha & Hb) Hl Hr.
  assert (Hleft : Js.trim_left (l +:+ n +:+ r) = n +:+ r).
  { unfold Js.trim_left.
    apply (strip_complete _ white_space_prefix_free l (n +:+ r) Hl); [|lia].
    rewrite Hn, append_cons. apply none_starts_with_spec. exact Ha. }
  unfold Js.trim. rewrite Hleft. unfold Js.trim_right.
  rewrite rev_string_append.
  rewrite (strip_complete _ white_space_suffix_free (Js.rev_string r) (Js.rev_string n)).
  - apply rev_string_involutive.
  - apply made_of_rev. exact Hr.
  - rewrite Hrev. apply none_starts_with_spec. exact Hb.
  - rewrite <- rev_string_append, rev_string_length. lia.
Qed.

Lemma known_services_solid (n : string) : In n known_services -> solid n.
Proof.
  unfold known_services, solid. simpl.
  intros [<-|[<-|[<-|[<-|[<-|[<-|[]]]]]]];
    eexists _, _, _, _; (split; [reflexivity|]); (split; [vm_compute; reflexivity|]);
    split; vm_compute; reflexivity.
Qed.

(** ** The parts between commas *)

Lemma split_app_sep (c : ascii) (x r : string) :
  Js.split c (x +:+ String c r) = (Js.split c x ++ Js.split c r)%list.
Proof.
  induction x as [|a x IH].
  - change ("" +:+ String c r) with (String c r). simpl. rewrite Ascii.eqb_refl. reflexivity.
  - rewrite append_cons. simpl. rewrite IH.
    destruct (Ascii.eqb a c); [reflexivity|].
    pose proof (split_nonempty c x) as Hx.
    destruct (Js.split c x) as [|q qs]; [contradiction|]. reflexivity.
Qed.

Lemma join_middle (sep : string) (l1 l2 : list string) (p : string) :
  exists pre post,
    Js.join sep (l1 ++ p :: l2)%list = pre +:+ p +:+ post
    /\ (pre = "" \/ exists x, pre = x +:+ sep)
    /\ (post = "" \/ exists y, post = sep +:+ y).
Proof.
  induction l1 as [|a l1 IH].
  - exists "". destruct l2 as [|b l2].
    + exists "". simpl. rewrite append_nil_r. auto.
    + exists (sep +:+ Js.join sep (b :: l2)). split; [reflexivity|]. eauto.
  - destruct IH as (pre & post & Hj & Hpre & Hpost).
    exists (a +:+ sep +:+ pre), post. split; [|split; [right|exact Hpost]].
    + change (Js.join sep ((a :: l1) ++ p :: l2)%list)
        with (Js.join sep (a :: (l1 ++ p :: l2)%list)).
      destruct (l1 ++ p :: l2)%list as [|b l] eqn:Hl.
      { destruct l1; discriminate. }
      change (Js.join sep (a :: b :: l)) with (a +:+ sep +:+ Js.join sep (b :: l)).
      rewrite Hj, !append_assoc. reflexivity.
    + destruct Hpre as [->|(x & ->)].
      * exists a. rewrite append_nil_r. reflexivity.
      * exists (a +:+ sep +:+ x). rewrite !append_assoc. reflexivity.
Qed.

(** The parts [split] returns are the parts between the commas. *)
Lemma split_part_of (v p : string) : In p (Js.split "," v) <-> part_of v p.
Proof.
  unfold part_of. split.
  - intros Hin.
    pose proof (split_parts_clean "," v) as Hclean.
    rewrite List.Forall_forall in Hclean. specialize (Hclean p Hin).
    split.
    { intros Hc. apply includes_char_In in Hc. congruence. }
    apply in_split in Hin as (l1 & l2 & Hs).
    destruct (join_middle "," l1 l2 p) as (pre & post & Hj & Hpre & Hpost).
    exists pre, post. split; [|auto].
    rewrite <- Hj, <- Hs. symmetry. apply (split_join "," v).
  - intros (Hclean & pre & post & -> & Hpre & Hpost).
    assert (Hc : Js.includes_char "," p = false).
    { destruct (Js.includes_char "," p) eqn:E; [|reflexivity].
      apply includes_char_In in E. contradiction. }
    assert (Hrest : In p (Js.split "," (p +:+ post))).
    { destruct Hpost as [->|(y & ->)].
      - rewrite append_nil_r, (split_clean _ _ Hc). left. reflexivity.
      - change ("," +:+ y) with (String "," y).
        rewrite split_app_sep, (split_clean _ _ Hc). left. reflexivity. }
    destruct Hpre as [->|(x & ->)]; [exact Hrest|].
    rewrite append_assoc. change ("," +:+ p +:+ post) with (String "," (p +:+ post)).
    rewrite split_app_sep. apply in_or_app. right. exact Hrest.
Qed.

(** A known service is enabled exactly when [ENABLED_SERVICES] lists it. *)
Lemma enabled_listed (env : Gateway.ProcessEnv) (n : string) :
  In n known_services ->
  Js.includes (Gateway.enabledServices env) n = true <-> listed env n.
Proof.
  intros Hknown. rewrite includes_In. unfold Gateway.enabledServices, listed, Auth.or_string.
  destruct (env "ENABLED_SERVICES") as [v|].
  - destruct (String.eqb_spec v "") as [->|Hv].
    + simpl. split; [intros [H|[]]; auto | intros ->; auto].
    + destruct v as [|a v]; [contradiction|]. simpl Js.truthy. cbv iota.
      rewrite in_map_iff. split.
      * intros (p & Htrim & Hp). apply split_part_of in Hp.
        destruct (trim_sound p) as (l & r & Hlr & Hl & Hr). rewrite Htrim in Hlr.
        exists p, l, r. auto.
      * intros (p & l & r & Hp & -> & Hl & Hr). exists (l +:+ n +:+ r). split.
        -- apply trim_complete; auto. apply known_services_solid. exact Hknown.
        -- apply split_part_of. exact Hp.
  - simpl. split; [intros [H|[]]; auto | intros ->; auto].
Qed.
(** The URL of an entry: the variable when it is set and not empty,
    the default otherwise. *)
Lemma getSubgraphURL_spec (env : ProcessEnv) (envVar defaultUrl : string) :
  getSubgraphURL env envVar defaultUrl
  = match env envVar with
    | Some u => if String.eqb u "" then defaultUrl else u
    | None => defaultUrl
    end.
Proof.
  unfold getSubgraphURL, or_string.
  destruct (env envVar) as [[|a u]|]; reflexivity.
Qed.

(** X9: the configured services are the known ones that
    [ENABLED_SERVICES] lists - those that are, white space of any kind
    apart, one of its comma-separated parts - in the fixed order of the
    source, whatever the order or the unknown names of the variable;
    every entry has timeout 10000 and 3 retries, and its URL is the
    value of the service's variable when that is set and not empty,
    the service's default otherwise, never empty; and with
    [ENABLED_SERVICES] unset or empty the only service is [despacho]. *)
Theorem SUBGRAPH_CONFIG_entries (env : ProcessEnv) :
  (exists keep : string -> bool,
     map name (SUBGRAPH_CONFIG env) = List.filter keep known_services
     /\ forall n, In n known_services -> (keep n = true <-> listed env n))
  /\ (forall x, In x (SUBGRAPH_CONFIG env) ->
        timeout x = 10000 /\ retries x = 3 /\ url x <> ""
        /\ exists envVar defaultUrl,
             In (name x, envVar, defaultUrl) service_table
             /\ url x = match env envVar with
                        | Some u => if String.eqb u "" then defaultUrl else u
                        | None => defaultUrl
                        end)
  /\ (env "ENABLED_SERVICES" = None \/ env "ENABLED_SERVICES" = Some "" ->
      map name (SUBGRAPH_CONFIG env) = ["despacho"]).
Proof.
  split; [|split].
  - exists (Js.includes (enabledServices env)). split; [|apply enabled_listed].
    unfold SUBGRAPH_CONFIG, entry, known_services. simpl.
    destruct (Js.includes (enabledServices env) "autentificacion");
      destruct (Js.includes (enabledServices env) "despacho");
      destruct (Js.includes (enabledServices env) "recepcion");
      destruct (Js.includes (enabledServices env) "websocket");
      destruct (Js.includes (enabledServices env) "decision");
      destruct (Js.includes (enabledServices env) "ml_despacho");
      reflexivity.
  - intros x Hx. unfold SUBGRAPH_CONFIG in Hx. rewrite !in_app_iff in Hx.
    destruct Hx as [Hx|[Hx|[Hx|[Hx|[Hx|Hx]]]]];
      apply entry_In in Hx as [-> _]; cbn [name url timeout retries];
      (split; [reflexivity|]); (split; [reflexivity|]);
      (split; [apply getSubgraphURL_nonempty; discriminate|]);
      eexists _, _; (split; [|apply getSubgraphURL_spec]);
      unfold service_table; simpl; tauto.
  - intros Hunset. unfold SUBGRAPH_CONFIG, entry, enabledServices.
    destruct Hunset as [-> | ->]; reflexivity.
Qed.

Lemma SUBGRAPH_CONFIG_entries_witness :
  map name (SUBGRAPH_CONFIG (fun _ => None)) = ["despacho"].
Proof.
  apply (proj2 (proj2 (SUBGRAPH_CONFIG_entries (fun _ => None)))). left. reflexivity.
Defined.

Example SUBGRAPH_CONFIG_order_and_unknown :
  map name (SUBGRAPH_CONFIG
              (fun k => if String.eqb k "ENABLED_SERVICES"
                        then Some " websocket ,billing,autentificacion" else None))
  = ["autentificacion"; "websocket"].
Proof. vm_compute. reflexivity. Qed.

(** A no-break space and a byte order mark around a name are trimmed
    like a space. *)
Example SUBGRAPH_CONFIG_unicode_space :
  map name (SUBGRAPH_CONFIG
              (fun k => if String.eqb k "ENABLED_SERVICES"
                        then Some (utf8 160 +:+ "websocket" +:+ utf8 65279
                                   +:+ "," +:+ utf8 8232 +:+ "despacho")
                        else None))
  = ["despacho"; "websocket"].
Proof. vm_compute. reflexivity. Qed.

(** ** The sets of the checker over several runs *)

Lemma set_add_fresh (x : string) (s : JsSet) : ~ In x s -> set_add x s = (s ++ [x])%list.
Proof.
  intros Hx. unfold set_add, set_has.
  destruct (Js.includes s x) eqn:Hin; [|reflexivity].
  apply includes_In in Hin. contradiction.
Qed.

Lemma set_has_false (x : string) (s : JsSet) : ~ In x s -> set_has s x = false.
Proof.
  intros Hx. unfold set_has. destruct (Js.includes s x) eqn:Hin; [|reflexivity].
  apply includes_In in Hin. contradiction.
Qed.

(** While the object's sets equal the local arrays and hold no name
    still to be probed, they stay equal. *)
Lemma loop_first_run (fetch : string -> FetchOutcome) (cfg : list SubgraphConfig) (st : Loop) :
  List.NoDup (map name cfg) ->
  this_availableServices (this st) = available st ->
  this_unavailableServices (this st) = unavailable st ->
  (forall n, In n (available st) \/ In n (unavailable st) -> ~ In n (map name cfg)) ->
  this_availableServices (this (fold_left (probe fetch) cfg st))
  = available (fold_left (probe fetch) cfg st)
  /\ this_unavailableServices (this (fold_left (probe fetch) cfg st))
     = unavailable (fold_left (probe fetch) cfg st).
Proof.
  revert st. induction cfg as [|c cfg IH]; intros st Hnd Ha Hu Hfresh; [auto|].
  simpl fold_left. inversion Hnd as [|? ? Hc Hnd']; subst.
  assert (Hca : ~ In (name c) (available st)).
  { intros H. apply (Hfresh (name c)); [auto | left; reflexivity]. }
  assert (Hcu : ~ In (name c) (unavailable st)).
  { intros H. apply (Hfresh (name c)); [auto | left; reflexivity]. }
  apply IH; [exact Hnd' | | |].
  - unfold probe. destruct (fetch _) as [[|]|]; simpl; rewrite ?Ha; auto.
    apply set_add_fresh. exact Hca.
  - unfold probe. destruct (fetch _) as [[|]|]; simpl; rewrite ?Hu.
    + rewrite set_has_false by exact Hcu. reflexivity.
    + apply set_add_fresh. exact Hcu.
    + apply set_add_fresh. exact Hcu.
  - intros n Hn Hin.
    destruct (probe_arrays fetch st c) as [Ea Eu]. rewrite Ea, Eu in Hn.
    rewrite !in_app_iff in Hn.
    assert (Hn' : (In n (available st) \/ In n (unavailable st)) \/ name c = n).
    { destruct (reachable fetch c); simpl in Hn; tauto. }
    destruct Hn' as [Hn'| <-]; [|contradiction].
    apply (Hfresh n Hn'). right. exact Hin.
Qed.

(** X10: after the first [checkServiceHealth] of a fresh checker,
    [getStatus] reports exactly what that run returned. *)
Theorem getStatus_after_first_run (env : ProcessEnv) (fetch : string -> FetchOutcome) :
  let cfg := SUBGRAPH_CONFIG env in
  getStatus cfg (checkServiceHealth cfg fetch (new_checker cfg)).2
  = (checkServiceHealth cfg fetch (new_checker cfg)).1.
Proof.
  cbv zeta. unfold getStatus, checkServiceHealth. cbn [fst snd].
  destruct (loop_first_run fetch (SUBGRAPH_CONFIG env)
              {| available := []; unavailable := [];
                 this := new_checker (SUBGRAPH_CONFIG env) |})
    as [-> ->]; try reflexivity.
  - apply SUBGRAPH_CONFIG_NoDup.
  - simpl. tauto.
Qed.

Lemma set_add_NoDup (x : string) (s : JsSet) : List.NoDup s -> List.NoDup (set_add x s).
Proof.
  intros Hs. unfold set_add, set_has. destruct (Js.includes s x) eqn:Hx; [exact Hs|].
  apply NoDup_rev in Hs. rewrite <- (rev_involutive (s ++ [x])).
  apply NoDup_rev. rewrite rev_app_distr. simpl. constructor; [|exact Hs].
  rewrite <- in_rev. intros Hin. apply includes_In in Hin. congruence.
Qed.

Lemma set_delete_NoDup (x : string) (s : JsSet) : List.NoDup s -> List.NoDup (set_delete x s).
Proof. apply List.NoDup_filter. Qed.

Lemma probe_NoDup (fetch : string -> FetchOutcome) (st : Loop) (config : SubgraphConfig) :
  List.NoDup (this_availableServices (this st)) ->
  List.NoDup (this_unavailableServices (this st)) ->
  List.NoDup (this_availableServices (this (probe fetch st config)))
  /\ List.NoDup (this_unavailableServices (this (probe fetch st config))).
Proof.
  intros Ha Hu. unfold probe. destruct (fetch _) as [[|]|]; simpl; split;
    auto using set_add_NoDup.
  destruct (set_has _ _); auto using set_delete_NoDup.
Qed.

Lemma loop_NoDup (fetch : string -> FetchOutcome) (cfg : list SubgraphConfig) (st : Loop) :
  List.NoDup (this_availableServices (this st)) ->
  List.NoDup (this_unavailableServices (this st)) ->
  List.NoDup (this_availableServices (this (fold_left (probe fetch) cfg st)))
  /\ List.NoDup (this_unavailableServices (this (fold_left (probe fetch) cfg st))).
Proof.
  revert st. induction cfg as [|c cfg IH]; intros st Ha Hu; [auto|].
  simpl. destruct (probe_NoDup fetch st c Ha Hu) as [Ha' Hu']. apply IH; assumption.
Qed.

Lemma runs_snoc (cfg : list SubgraphConfig) (fs : list (string -> FetchOutcome))
    (f : string -> FetchOutcome) (c : Checker) :
  runs cfg (fs ++ [f]) c = (checkServiceHealth cfg f (runs cfg fs c)).2.
Proof. unfold runs. rewrite fold_left_app. reflexivity. Qed.

(** What holds of the sets after any number of runs of a fresh checker
    over a list of endpoints with distinct names. *)
Lemma runs_invariant (cfg : list SubgraphConfig) (fs : list (string -> FetchOutcome)) :
  List.NoDup (map name cfg) ->
  let c := runs cfg fs (new_checker cfg) in
  (forall n, In n (this_availableServices c) \/ In n (this_unavailableServices c) ->
             In n (map name cfg))
  /\ List.NoDup (this_availableServices c)
  /\ List.NoDup (this_unavailableServices c)
  /\ (forall n, In n (this_availableServices c)
                <-> exists f x, In f fs /\ In x cfg /\ name x = n /\ reachable f x = true).
Proof.
  intros Hnd. cbv zeta. induction fs as [|f fs IH] using rev_ind.
  - simpl. split; [tauto|]. split; [constructor|]. split; [constructor|].
    intros n. split; [tauto|]. intros (f & x & [] & _).
  - destruct IH as (Hsub & Ha & Hu & Hav). rewrite runs_snoc.
    unfold checkServiceHealth. cbn [snd].
    set (c := runs cfg fs (new_checker cfg)) in *.
    set (st := {| available := []; unavailable := []; this := c |}).
    destruct (loop_NoDup f cfg st Ha Hu) as [Ha' Hu'].
    split; [|split; [exact Ha'|split; [exact Hu'|]]].
    + intros n [Hn|Hn].
      * apply loop_available in Hn as [Hn|(x & Hx & <- & _)]; [auto|].
        apply in_map. exact Hx.
      * apply (loop_unavailable _ _ _ _ Hnd) in Hn as [(x & Hx & <- & _)|[Hn _]]; [|auto].
        apply in_map. exact Hx.
    + intros n. rewrite loop_available. simpl. rewrite Hav. split.
      * intros [(f' & x & Hf' & Hx)|(x & Hx)].
        -- exists f', x. rewrite in_app_iff. tauto.
        -- exists f, x. rewrite in_app_iff. simpl. tauto.
      * intros (f' & x & Hf' & Hx). apply in_app_iff in Hf' as [Hf'|[<-|[]]].
        -- left. eauto.
        -- right. eauto.
Qed.

(** X11: after any number of runs of a fresh checker, [getStatus]
    lists only configured names, and lists none twice in the same list. *)
Theorem getStatus_lists_configured_names
    (env : ProcessEnv) (fs : list (string -> FetchOutcome)) :
  let cfg := SUBGRAPH_CONFIG env in
  let s := getStatus cfg (runs cfg fs (new_checker cfg)) in
  (forall n, In n (availableServices s) \/ In n (unavailableServices s) ->
             In n (map name cfg) /\ In n known_services)
  /\ List.NoDup (availableServices s)
  /\ List.NoDup (unavailableServices s)
  /\ (length (availableServices s) <= totalConfigured s)%nat
  /\ (length (unavailableServices s) <= totalConfigured s)%nat.
Proof.
  cbv zeta. unfold getStatus. cbn [availableServices unavailableServices totalConfigured].
  destruct (runs_invariant (SUBGRAPH_CONFIG env) fs (SUBGRAPH_CONFIG_NoDup env))
    as (Hsub & Ha & Hu & _).
  assert (Hknown : forall n, In n (map name (SUBGRAPH_CONFIG env)) -> In n known_services).
  { intros n Hn. rewrite in_map_iff in Hn. destruct Hn as (x & <- & Hx).
    unfold SUBGRAPH_CONFIG in Hx. rewrite !in_app_iff in Hx.
    destruct Hx as [Hx|[Hx|[Hx|[Hx|[Hx|Hx]]]]];
      apply entry_In in Hx as [-> _]; simpl; tauto. }
  split; [|split; [exact Ha|split; [exact Hu|]]].
  - intros n Hn. split; [apply Hsub; exact Hn | apply Hknown, Hsub; exact Hn].
  - rewrite <- (length_map name (SUBGRAPH_CONFIG env)). split.
    + apply NoDup_incl_length; [exact Ha|]. intros n Hn. apply Hsub. auto.
    + apply NoDup_incl_length; [exact Hu|]. intros n Hn. apply Hsub. auto.
Qed.

(** X12: after any number of runs of a fresh checker, the object's
    [unavailableServices] is exactly the set of services the latest run
    found unreachable, while its [availableServices] is the set of
    services that some run so far found reachable. *)
Theorem sets_after_runs
    (env : ProcessEnv) (fs : list (string -> FetchOutcome)) (f : string -> FetchOutcome) :
  let cfg := SUBGRAPH_CONFIG env in
  let c := runs cfg (fs ++ [f]) (new_checker cfg) in
  (forall n, In n (this_unavailableServices c)
             <-> exists x, In x cfg /\ name x = n /\ reachable f x = false)
  /\ (forall n, In n (this_availableServices c)
                <-> exists g x, In g (fs ++ [f]) /\ In x cfg /\ name x = n
                                /\ reachable g x = true).
Proof.
  cbv zeta. pose proof (SUBGRAPH_CONFIG_NoDup env) as Hnd.
  split.
  - destruct (runs_invariant (SUBGRAPH_CONFIG env) fs Hnd) as (Hsub & _).
    intros n. rewrite runs_snoc. unfold checkServiceHealth. cbn [snd].
    rewrite (loop_unavailable _ _ _ _ Hnd). simpl. split.
    + intros [H|[Hin Hnot]]; [exact H|]. exfalso. apply Hnot, Hsub. auto.
    + auto.
  - apply (runs_invariant (SUBGRAPH_CONFIG env) (fs ++ [f]) Hnd).
Qed.

(** ** The health endpoint and the readiness flags *)

Lemma filter_nil_iff {A} (f : A -> bool) (l : list A) :
  List.filter f l = [] <-> forall x, In x l -> f x = false.
Proof.
  induction l as [|a l IH]; simpl; [tauto|].
  destruct (f a) eqn:Ha.
  - split; [discriminate|]. intros H. specialize (H a (or_introl eq_refl)). congruence.
  - rewrite IH. split.
    + intros H x [<-|Hx]; auto.
    + intros H x Hx. apply H. auto.
Qed.

(** X13: in the answer of [GET /health/detailed], [allHealthy] says
    that no endpoint failed its probe and [partiallyHealthy] that at
    least one passed; with no endpoint configured the answer is
    all-healthy and not partially healthy.  The readiness fields are the
    server's flags and do not depend on the probes, and the request runs
    the checker like any [checkServiceHealth]. *)
Theorem health_detailed_flags
    (cfg : list SubgraphConfig) (fetch : string -> FetchOutcome)
    (s : Server.Readiness) (c : Checker) :
  let h := (Endpoints.health_detailed cfg fetch s c).1 in
  (Endpoints.allHealthy h = true <-> forall x, In x cfg -> reachable fetch x = true)
  /\ (Endpoints.partiallyHealthy h = true
      <-> exists x, In x cfg /\ reachable fetch x = true)
  /\ (cfg = [] -> Endpoints.allHealthy h = true /\ Endpoints.partiallyHealthy h = false)
  /\ Endpoints.services h = (checkServiceHealth cfg fetch c).1
  /\ Endpoints.readyForRequests h = Server.schemaReady s
  /\ Endpoints.schemaReady h = Server.schemaReady s
  /\ Endpoints.serverStarted h = Server.serverStarted s
  /\ (Endpoints.health_detailed cfg fetch s c).2 = (checkServiceHealth cfg fetch c).2.
Proof.
  cbv zeta. unfold Endpoints.health_detailed, checkServiceHealth.
  cbn [fst snd Endpoints.allHealthy Endpoints.partiallyHealthy Endpoints.services
       Endpoints.readyForRequests Endpoints.schemaReady Endpoints.serverStarted
       availableServices unavailableServices totalConfigured].
  destruct (loop_arrays fetch cfg {| available := []; unavailable := []; this := c |})
    as [Ha Hu]. simpl in Ha, Hu.
  rewrite Ha, Hu, !length_map.
  assert (Hall : (length (List.filter (fun x => negb (reachable fetch x)) cfg) =? 0)%nat = true
                 <-> forall x, In x cfg -> reachable fetch x = true).
  { rewrite Nat.eqb_eq, length_zero_iff_nil, filter_nil_iff. split.
    - intros H x Hx. specialize (H x Hx). destruct (reachable fetch x); [reflexivity|discriminate].
    - intros H x Hx. rewrite (H x Hx). reflexivity. }
  assert (Hsome : (0 <? length (List.filter (reachable fetch) cfg))%nat = true
                  <-> exists x, In x cfg /\ reachable fetch x = true).
  { rewrite Nat.ltb_lt. split.
    - intros Hlen. destruct (List.filter (reachable fetch) cfg) as [|x l] eqn:Hf;
        [simpl in Hlen; lia|].
      assert (Hx : In x (List.filter (reachable fetch) cfg)) by (rewrite Hf; left; reflexivity).
      apply filter_In in Hx. eauto.
    - intros (x & Hx & Hr).
      assert (Hin : In x (List.filter (reachable fetch) cfg)) by (apply filter_In; auto).
      destruct (List.filter (reachable fetch) cfg); [contradiction|simpl; lia]. }
  split; [exact Hall|]. split; [exact Hsome|]. split.
  { intros ->. simpl. auto. }
  auto 10.
Qed.

Lemma health_detailed_flags_witness :
  Endpoints.allHealthy
    (Endpoints.health_detailed [] fetch_all_up Server.initial (new_checker [])).1 = true
  /\ Endpoints.partiallyHealthy
       (Endpoints.health_detailed [] fetch_all_up Server.initial (new_checker [])).1 = false.
Proof.
  apply (health_detailed_flags [] fetch_all_up Server.initial (new_checker [])).
  reflexivity.
Defined.

(** The flags in every state the server can reach. *)
Lemma run_initial_cases (evs : list Server.Event) :
  Server.run Server.initial evs = Server.initial
  \/ Server.run Server.initial evs = Server.step Server.initial Server.StartResolved
  \/ exists m, Server.run Server.initial evs
               = Server.step Server.initial (Server.StartRejected m).
Proof.
  induction evs as [|ev evs IH] using rev_ind; [left; reflexivity|].
  unfold Server.run in *. rewrite fold_left_app. simpl.
  destruct IH as [->|[->|(m & ->)]].
  - destruct ev; simpl; eauto.
  - right. left. apply step_after_start. reflexivity.
  - right. right. exists m. apply step_after_start. reflexivity.
Qed.

(** X14: in every state the server reaches, the [/graphql] routes are
    registered exactly when [schemaReady] holds and the server listens
    exactly when the start-up has settled; and once
    [apolloServer.start()] has fulfilled, [schemaReady] stays [true]
    whatever happens later, so that [/health/detailed] keeps reporting
    [readyForRequests] even when every probe fails. *)
Theorem readiness_is_decided_at_startup (evs : list Server.Event) :
  (let s := Server.run Server.initial evs in
   Server.graphql_routes s = Server.schemaReady s
   /\ Server.listening s = Server.serverStarted s
   /\ (Server.schemaReady s = true -> Server.serverStarted s = true))
  /\ (let s := Server.run (Server.step Server.initial Server.StartResolved) evs in
      Server.schemaReady s = true
      /\ forall cfg fetch c,
           Endpoints.readyForRequests (Endpoints.health_detailed cfg fetch s c).1 = true).
Proof.
  cbv zeta. split.
  - destruct (run_initial_cases evs) as [->|[->|(m & ->)]]; simpl; auto.
  - rewrite run_after_start by reflexivity. split; [reflexivity|].
    intros cfg fetch c. unfold Endpoints.health_detailed.
    destruct (checkServiceHealth cfg fetch c). reflexivity.
Qed.

(** ** The GraphQL context *)

(** The context the gate attaches is the anonymous one or a full one. *)
Lemma gate_context_shape (e : Env) (w : World) :
  auth (req (authenticateRequest e w).2) = Some anonymous
  \/ exists u tok ty,
       auth (req (authenticateRequest e w).2)
       = Some {| authenticated := true; user := Some u;
                 token := Some tok; Auth.tokenType := Some ty |}.
Proof.
  destruct (authenticateRequest_cases e w)
    as [(o & w' & _ & _ & Hres & Hauth & _)
       |[(tok & w2 & _ & _ & Hrun & Hres)|(tok & err & w2 & _ & _ & _ & Hres)]];
    rewrite Hres; simpl; auto.
  right.
  pose proof (routed_outcome e tok (add_log (log_processing tok) (set_auth anonymous w)))
    as Hout.
  destruct (detectTokenType tok).
  - destruct Hout as [(c & w1 & _ & _ & Hrun' & Hauth & _)
                     |[(u & w1 & _ & _ & Hrun' & Hauth & _)|(err & w1 & _ & Hrun' & _)]];
      rewrite Hrun in Hrun'; try discriminate; injection Hrun' as <-;
      rewrite Hauth; unfold sanctum_context; eauto.
  - destruct Hout as [(d & w1 & _ & Hrun' & Hauth & _)|(err & w1 & _ & Hrun' & _)];
      rewrite Hrun in Hrun'; try discriminate; injection Hrun' as <-.
    rewrite Hauth. unfold jwt_context. eauto.
Qed.

(** X15: the GraphQL context built after [authenticateRequest] carries
    a user, a token and a scheme exactly when it says [authenticated];
    an unauthenticated context carries none of them, and no user id. *)
Theorem context_after_gate (e : Env) (w : World) :
  let ctx := Endpoints.context (req (authenticateRequest e w).2) in
  (Endpoints.authenticated ctx = false ->
   Endpoints.user ctx = None /\ Endpoints.token ctx = None
   /\ Endpoints.userId ctx = None /\ Endpoints.tokenType ctx = None)
  /\ (Endpoints.authenticated ctx = true ->
      exists u, Endpoints.user ctx = Some u
                /\ Endpoints.userId ctx = id u
                /\ is_Some (Endpoints.token ctx)
                /\ is_Some (Endpoints.tokenType ctx)).
Proof.
  cbv zeta. unfold Endpoints.context.
  destruct (gate_context_shape e w) as [->|(u & tok & ty & ->)]; simpl.
  - split; [auto|discriminate].
  - split; [discriminate|]. intros _. exists u. repeat split; eauto.
Qed.

(** ** Recoveries in the log *)

Lemma set_has_In (s : JsSet) (x : string) : set_has s x = true <-> In x s.
Proof. apply includes_In. Qed.

Lemma set_has_ext (s s' : JsSet) (x : string) :
  (In x s <-> In x s') -> set_has s x = set_has s' x.
Proof.
  intros H. destruct (set_has s x) eqn:E1, (set_has s' x) eqn:E2; try reflexivity.
  - apply set_has_In in E1. apply H, set_has_In in E1. congruence.
  - apply set_has_In in E2. apply H, set_has_In in E2. congruence.
Qed.

Lemma loop_info_log (fetch : string -> FetchOutcome) (cfg : list SubgraphConfig) (st : Loop) :
  List.NoDup (map name cfg) ->
  info_log (this (fold_left (probe fetch) cfg st))
  = (info_log (this st)
     ++ map recovered_line
          (List.filter
             (fun x => reachable fetch x && set_has (this_unavailableServices (this st)) (name x))
             cfg))%list.
Proof.
  revert st. induction cfg as [|c cfg IH]; intros st Hnd; simpl.
  - rewrite app_nil_r. reflexivity.
  - inversion Hnd as [|? ? Hc Hnd']; subst. rewrite (IH _ Hnd').
    assert (Hrest : List.filter
                      (fun x => reachable fetch x
                                && set_has (this_unavailableServices (this (probe fetch st c)))
                                     (name x)) cfg
                    = List.filter
                        (fun x => reachable fetch x
                                  && set_has (this_unavailableServices (this st)) (name x)) cfg).
    { apply filter_ext_in. intros x Hx. f_equal. apply set_has_ext.
      rewrite probe_unavailable.
      assert (Hne : name x <> name c).
      { intros Heq. apply Hc. rewrite <- Heq. apply in_map. exact Hx. }
      destruct (reachable fetch c); tauto. }
    rewrite Hrest.
    unfold probe at 1, reachable at 2.
    destruct (fetch _) as [[|]|]; simpl; try reflexivity.
    destruct (set_has (this_unavailableServices (this st)) (name c)); simpl;
      [rewrite <- app_assoc|]; reflexivity.
Qed.

(** X16: one [checkServiceHealth] logs a recovery for exactly the
    configured services that were in the object's [unavailableServices]
    before the run and probe reachable in it, one line each, in the order
    of the configuration; the first run of a fresh checker logs none. *)
Theorem recoveries_logged (env : ProcessEnv) (fetch : string -> FetchOutcome) (c : Checker) :
  let cfg := SUBGRAPH_CONFIG env in
  info_log (checkServiceHealth cfg fetch c).2
  = (info_log c
     ++ map recovered_line
          (List.filter
             (fun x => reachable fetch x && set_has (this_unavailableServices c) (name x))
             cfg))%list
  /\ info_log (checkServiceHealth cfg fetch (new_checker cfg)).2 = info_log (new_checker cfg).
Proof.
  cbv zeta. unfold checkServiceHealth. cbn [snd].
  rewrite !loop_info_log by apply SUBGRAPH_CONFIG_NoDup. split; [reflexivity|].
  simpl. rewrite (proj2 (filter_nil_iff _ _)); [reflexivity|].
  intros x _. apply andb_false_r.
Qed.

Example recovery_of_autentificacion :
  info_log
    (checkServiceHealth (SUBGRAPH_CONFIG env_two) fetch_despacho_down
       (checkServiceHealth (SUBGRAPH_CONFIG env_two) fetch_despacho_up
          (new_checker (SUBGRAPH_CONFIG env_two))).2).2
  = ["[RESILIENT GATEWAY] Initialized service checker for 2 service(s)";
     "[RESILIENT GATEWAY] ✓ Service recovered: autentificacion"].
Proof. vm_compute. reflexivity. Qed.

(** ** The lifetime of an entry across validations *)


(** ** The signing secret *)

(** X21: [getJWTSecret] never returns the empty string: it returns
    [JWT_SECRET] when that is set and non-empty and the built-in default
    otherwise; it logs its warning exactly when the secret in use is the
    default and [NODE_ENV] is [production], and changes nothing else. *)
Theorem getJWTSecret_never_empty (e : Env) (w : World) :
  exists s w',
    getJWTSecret e w = (Returns s, w')
    /\ s <> ""
    /\ (getenv e "JWT_SECRET" = Some s \/ s = "change-me-in-production")
    /\ (forall v, getenv e "JWT_SECRET" = Some v -> v <> "" -> s = v)
    /\ ((s = "change-me-in-production" /\ getenv e "NODE_ENV" = Some "production"
         /\ w' = add_log {| level := LWarn;
                            message := "JWT_SECRET is using default value in production!" |} w)
        \/ (~ (s = "change-me-in-production" /\ getenv e "NODE_ENV" = Some "production")
            /\ w' = w)).
Proof.
  unfold getJWTSecret. run_js. unfold env_or.
  set (s := default "change-me-in-production" (or_string (getenv e "JWT_SECRET") None)).
  assert (Hs : s <> ""
               /\ (getenv e "JWT_SECRET" = Some s \/ s = "change-me-in-production")
               /\ (forall v, getenv e "JWT_SECRET" = Some v -> v <> "" -> s = v)).
  { unfold s. destruct (or_string (getenv e "JWT_SECRET") None) as [v|] eqn:Hv; simpl.
    - apply or_string_Some in Hv as [Hv Hne]. split; [exact Hne|]. split; [auto|].
      intros v' Hv' _. congruence.
    - split; [discriminate|]. split; [auto|].
      intros v Hv' Hne. exfalso.
      assert (or_string (getenv e "JWT_SECRET") None = Some v)
        by (apply or_string_Some; auto).
      congruence. }
  destruct Hs as (Hne & Hsrc & Hset).
  destruct (String.eqb_spec s "change-me-in-production") as [Hd|Hd]; simpl.
  - destruct (bool_decide (getenv e "NODE_ENV" = Some "production")) eqn:Hp; simpl.
    + apply bool_decide_eq_true in Hp. eexists _, _. split; [reflexivity|]. auto 10.
    + apply bool_decide_eq_false in Hp. eexists _, _. split; [reflexivity|].
      repeat split; auto. right. split; [tauto|reflexivity].
  - eexists _, _. split; [reflexivity|]. repeat split; auto.
    right. split; [tauto|reflexivity].
Qed.
